(** * Gopher network service: shallow embedding and verification

    Embedding of the Glenda "gopher" network service (Rust):
    - [NetDev]   : [GlendaNetDevice] of src/device.rs (RX/TX over ring + SHM);
    - [Sockets]  : the socket table and the socket facade of
                   src/gopher/network.rs ([NetworkService::socket],
                   [GopherSocket]);
    - [Probe]    : the probe pipeline of src/gopher/mod.rs;
    - [Run]      : [SystemService::run] of src/gopher/server.rs and of the
                   older [GopherManager] draft in src/gopher.rs.

    Collaborators outside the repository (the smoltcp stack, the glenda
    ring client and uring server, the device manager) are modelled by their
    interface: either as section variables, or as the smallest executable
    model of the behaviour the code relies on, documented where it is
    defined. *)

From Stdlib Require Import ZArith Lia Bool.
From stdpp Require Import base list gmap strings.

Open Scope N_scope.

(** ** Shared definitions *)

(** [glenda::error::Error], restricted to the variants this program uses. *)
Inductive Error :=
| Success
| NotFound
| InvalidArgs
| WouldBlock
| Timeout
| NotSupported
| NotInitialized
| IoError
| InternalError
| Generic.

(** Rust's [Result<A, Error>]. *)
Inductive Result (A : Type) :=
| Ok (a : A)
| Err (e : Error).
Arguments Ok {A} a.
Arguments Err {A} e.

(** Whether an operation finished or the Rust code panicked (an
    [unwrap] on [None], an out-of-range slice, an invalid socket handle). *)
Inductive Outcome (A : Type) :=
| Done (a : A)
| Panic.
Arguments Done {A} a.
Arguments Panic {A}.

(** ** Net device adapter ([src/device.rs]) *)
Module NetDev.

(** Opcodes of the driver ring (glenda_drivers); only their distinctness
    matters here. *)
Definition OP_READ : N := 0.
Definition OP_WRITE : N := 1.

(** A submission-queue entry: opcode, buffer offset in SHM, length,
    user_data. *)
Record Sqe := mkSqe {
  sqe_opcode : N;
  sqe_off : N;
  sqe_len : N;
  sqe_user_data : N
}.

(** A completion-queue entry: user_data and signed result. *)
Record Cqe := mkCqe {
  cqe_user_data : N;
  cqe_res : Z
}.

(** The SHM view held by the ring client: base address and size. *)
Record ShmView := mkShm {
  shm_base : N;
  shm_size : N
}.

(** The [NetClient] of the adapter, reduced to what the adapter uses: the
    optional SHM view, the requests the driver has not completed yet, and
    the completions the adapter has not consumed yet. *)
Record NetClient := mkClient {
  shm : option ShmView;
  sq : list Sqe;
  cq : list Cqe
}.

(** [GlendaNetDevice] (the name and the driver endpoint play no part in
    the RX/TX paths and are left out). *)
Record GlendaNetDevice := mkDev {
  client : NetClient;
  rx_pending : bool;
  rx_id : N
}.

(** [RxToken]: SHM base pointer, frame index, length. *)
Record RxToken := mkRx {
  rx_shm : N;
  rx_shm_idx : nat;
  rx_len : nat
}.

(** [GlendaNetDevice::new]: a fresh ring, no RX in flight, tag 0x100.
    The ring and SHM parameters decide whether an SHM view is present. *)
Definition new_device (v : option ShmView) : GlendaNetDevice :=
  mkDev (mkClient v [] []) false 256.

Definition set_client (d : GlendaNetDevice) (c : NetClient) : GlendaNetDevice :=
  mkDev c (rx_pending d) (rx_id d).
Definition set_pending (d : GlendaNetDevice) (b : bool) : GlendaNetDevice :=
  mkDev (client d) b (rx_id d).

(** [NetClient::submit_recv(slice, user_data)]: queue a READ of [slice]
    (an offset/length into SHM). [ok] is the ring's answer: [false] when the
    submission queue is full, in which case nothing is queued. *)
Definition submit_recv (ok : bool) (c : NetClient) (off len ud : N)
  : Result NetClient :=
  if ok then Ok (mkClient (shm c) (sq c ++ [mkSqe OP_READ off len ud]) (cq c))
  else Err WouldBlock.

(** [NetClient::send_packet(slice)]: queue a WRITE of [slice]. The
    user_data the client stamps on TX requests is its own choice, passed
    here as [tx_ud]. *)
Definition send_packet (ok : bool) (tx_ud : N) (c : NetClient) (off len : N)
  : Result NetClient :=
  if ok then Ok (mkClient (shm c) (sq c ++ [mkSqe OP_WRITE off len tx_ud]) (cq c))
  else Err WouldBlock.

(** [NetClient::peek_cqe]: the head completion, taken off the queue. *)
Definition peek_cqe (c : NetClient) : option (Cqe * NetClient) :=
  match cq c with
  | [] => None
  | e :: rest => Some (e, mkClient (shm c) (sq c) rest)
  end.

(** [Device::receive for GlendaNetDevice], lines 106-135 of
    src/device.rs. [submit_ok] is the ring's answer to [submit_recv]. The
    TX token of the returned pair only borrows the client, so only the RX
    token is returned. The slice [shm.as_mut_slice()[..2048]] panics on an
    SHM view of fewer than 2048 bytes. *)
Definition receive (submit_ok : bool) (d : GlendaNetDevice)
  : Outcome (option RxToken * GlendaNetDevice) :=
  (* if let Some(shm) = self.client.shm() { if !self.rx_pending { ... } } *)
  let o1 :=
    match shm (client d) with
    | Some v =>
        if negb (rx_pending d) then
          (* slice = shm.as_mut_slice()[..2048] *)
          if (2048 <=? shm_size v)%N then
            match submit_recv submit_ok (client d) 0 2048 (rx_id d) with
            | Ok c' => Done (set_pending (set_client d c') true)
            | Err _ => Done d
            end
          else Panic
        else Done d
    | None => Done d
    end in
  match o1 with
  | Panic => Panic
  | Done d1 =>
  (* if self.rx_pending { if let Some(cqe) = self.client.peek_cqe() { ... } } *)
  if rx_pending d1 then
    match peek_cqe (client d1) with
    | Some (e, c') =>
        let d2 := set_client d1 c' in
        if (cqe_user_data e =? rx_id d2)%N then
          let d3 := set_pending d2 false in
          if (0 <? cqe_res e)%Z then
            (* self.client.shm().unwrap().as_ptr() *)
            match shm (client d3) with
            | Some v => Done (Some (mkRx (shm_base v) 0 (Z.to_nat (cqe_res e))), d3)
            | None => Panic
            end
          else Done (None, d3)
        else Done (None, d2)
    | None => Done (None, d1)
    end
  else Done (None, d1)
  end.

(** [TxToken::consume(len, f)] followed by [send_packet]: with SHM the
    packet is [shm[..len]], otherwise a 2048-byte stack buffer [[..len]];
    slicing past the end panics. The result of [send_packet] is ignored. *)
Definition tx_consume (send_ok : bool) (tx_ud : N) (len : N) (d : GlendaNetDevice)
  : Outcome GlendaNetDevice :=
  let limit := match shm (client d) with Some v => shm_size v | None => 2048 end in
  if (len <=? limit)%N then
    match send_packet send_ok tx_ud (client d) 0 len with
    | Ok c' => Done (set_client d c')
    | Err _ => Done d
    end
  else Panic.

(** [NetClient::setup_shm]: registers the SHM view. *)
Definition setup_shm (v : ShmView) (d : GlendaNetDevice) : GlendaNetDevice :=
  set_client d (mkClient (Some v) (sq (client d)) (cq (client d))).

(** The driver side of the ring: it completes any outstanding request [i]
    (not necessarily in order) with result [res], echoing its user_data. *)
Definition driver_complete (i : nat) (res : Z) (d : GlendaNetDevice)
  : option GlendaNetDevice :=
  match sq (client d) !! i with
  | Some r =>
      Some (set_client d (mkClient (shm (client d)) (delete i (sq (client d)))
                                   (cq (client d) ++ [mkCqe (sqe_user_data r) res])))
  | None => None
  end.

Section Steps.

(** The user_data the ring client stamps on TX requests. *)
Variable tx_ud : N.

(** Everything that can happen to one device: a [receive] call, a TX token
    consumed, SHM attached, or a request completed by the driver. *)
Inductive dev_step : GlendaNetDevice -> GlendaNetDevice -> Prop :=
| st_receive ok d tok d' :
    receive ok d = Done (tok, d') -> dev_step d d'
| st_transmit ok len d d' :
    tx_consume ok tx_ud len d = Done d' -> dev_step d d'
| st_setup_shm v d :
    dev_step d (setup_shm v d)
| st_driver i res d d' :
    driver_complete i res d = Some d' -> dev_step d d'.

(** States reachable from a freshly created device. *)
Inductive reachable : GlendaNetDevice -> Prop :=
| reach_new v : reachable (new_device v)
| reach_step d d' : reachable d -> dev_step d d' -> reachable d'.

End Steps.

(** RX requests the device has submitted and the driver has not completed,
    and RX completions the device has not consumed yet. *)
Fixpoint count_rx_req (id : N) (l : list Sqe) : nat :=
  match l with
  | [] => 0
  | r :: l' =>
      (if N.eqb (sqe_opcode r) OP_READ && N.eqb (sqe_user_data r) id then 1 else 0)
      + count_rx_req id l'
  end%nat.

Fixpoint count_rx_cqe (id : N) (l : list Cqe) : nat :=
  match l with
  | [] => 0
  | e :: l' => (if N.eqb (cqe_user_data e) id then 1 else 0) + count_rx_cqe id l'
  end%nat.

Definition rx_outstanding (d : GlendaNetDevice) : nat :=
  count_rx_req (rx_id d) (sq (client d)).
Definition rx_unseen (d : GlendaNetDevice) : nat :=
  count_rx_cqe (rx_id d) (cq (client d)).

(** The accounting invariant of the RX slot: [rx_id] keeps its initial
    tag, every queued request is this device's RX read or a TX write, the RX
    requests and unconsumed RX completions together number exactly one when
    an RX is pending and zero otherwise, and an RX is pending only once SHM
    is attached. *)
Definition req_ok (tx_ud id : N) (r : Sqe) : Prop :=
  (sqe_opcode r = OP_READ /\ sqe_user_data r = id) \/
  (sqe_opcode r = OP_WRITE /\ sqe_user_data r = tx_ud).

Definition dev_inv (tx_ud : N) (d : GlendaNetDevice) : Prop :=
  rx_id d = 256 /\
  Forall (req_ok tx_ud (rx_id d)) (sq (client d)) /\
  (rx_outstanding d + rx_unseen d = if rx_pending d then 1 else 0)%nat /\
  (rx_pending d = true -> shm (client d) <> None).

(** [receive] as the specification describes it, for a device with SHM
    attached: if no RX is in flight, submit one READ of the first 2 KiB of
    SHM frame 0 tagged [rx_id] (the RX is in flight once the submission is
    accepted); then look at the head completion: a completion tagged
    [rx_id] ends the RX, and with a positive result yields an RX token for
    exactly that many bytes of SHM frame 0; in all other cases nothing is
    returned. The result is the token, the in-flight flag afterwards and
    the submitted requests. *)
Definition receive_claim (submit_ok : bool) (d : GlendaNetDevice)
  : option RxToken * bool * list Sqe :=
  match shm (client d) with
  | Some v =>
      let '(pend, q) :=
        if rx_pending d then (true, sq (client d))
        else if submit_ok
             then (true, sq (client d) ++ [mkSqe OP_READ 0 2048 (rx_id d)])
             else (false, sq (client d)) in
      match cq (client d) with
      | e :: _ =>
          if (cqe_user_data e =? rx_id d)%N then
            if (0 <? cqe_res e)%Z
            then (Some (mkRx (shm_base v) 0 (Z.to_nat (cqe_res e))), false, q)
            else (None, false, q)
          else (None, pend, q)
      | [] => (None, pend, q)
      end
  | None => (None, rx_pending d, sq (client d))
  end.

(** An RX can be in flight only on a device that has SHM attached. *)
Definition shm_inv (d : GlendaNetDevice) : Prop :=
  rx_pending d = true -> shm (client d) <> None.

(** Sample states. *)
Definition demo_shm : ShmView := mkShm 1073741824 1048576.

(** A device after one [receive] that submitted its RX read. *)
Definition demo_dev : GlendaNetDevice :=
  mkDev (mkClient (Some demo_shm) [mkSqe OP_READ 0 2048 256] []) true 256.

End NetDev.

(** ** Socket table and socket facade ([src/gopher/network.rs]) *)
Module Sockets.

(** The part of smoltcp's TCP socket the facade uses. [tcp_new rx tx] is
    [tcp::Socket::new] over an RX buffer of [rx] bytes and a TX buffer of
    [tx] bytes; [send_slice] and [recv_slice] return [None] when smoltcp
    returns an error. [recv_slice] returns the byte count and the buffer
    after the copy. In smoltcp 0.12, [can_send] implies [may_send] and
    [send_slice] fails only on a socket that may not send; likewise
    [can_recv] implies [may_recv] and [recv_slice] fails only on a socket
    that may not receive: the last two fields. *)
Class TcpStack := {
  Sock : Type;
  tcp_new : nat -> nat -> Sock;
  can_send : Sock -> bool;
  can_recv : Sock -> bool;
  send_slice : Sock -> list Byte.byte -> option (nat * Sock);
  recv_slice : Sock -> list Byte.byte -> option (nat * list Byte.byte * Sock);
  send_slice_ready : forall s data, can_send s = true -> is_Some (send_slice s data);
  recv_slice_ready : forall s buf, can_recv s = true -> is_Some (recv_slice s buf)
}.

(** [glenda::protocol::network] constants (POSIX numbering). *)
Definition AF_INET : Z := 2.
Definition SOCK_STREAM : Z := 1.

(** A submission entry of a per-socket uring: opcode, client buffer
    address and length, user_data. *)
Record USqe := mkUSqe {
  usqe_opcode : N;
  usqe_addr : N;
  usqe_len : N;
  usqe_user_data : N
}.

Record UCqe := mkUCqe {
  ucqe_user_data : N;
  ucqe_res : Z
}.

(** [glenda::io::uring::IoUringServer] over a mapped ring: the pending
    submission entries, the completions not yet reaped by the client and
    the capacity of the completion queue. *)
Record IoUringServer := mkUring {
  ur_sq : list USqe;
  ur_cq : list UCqe;
  ur_cq_cap : nat
}.

(** [IoUringServer::next_request]: pops the head submission entry. *)
Definition next_request (u : IoUringServer) : option (USqe * IoUringServer) :=
  match ur_sq u with
  | [] => None
  | e :: rest => Some (e, mkUring rest (ur_cq u) (ur_cq_cap u))
  end.

(** [IoUringServer::complete]: appends a completion, or fails when the
    completion queue is full. *)
Definition complete (u : IoUringServer) (ud : N) (res : Z) : Result IoUringServer :=
  if (length (ur_cq u) <? ur_cq_cap u)%nat
  then Ok (mkUring (ur_sq u) (ur_cq u ++ [mkUCqe ud res]) (ur_cq_cap u))
  else Err WouldBlock.

Section WithStack.
Context `{T : TcpStack}.

(** smoltcp's [SocketSet]: a handle is a slot index; [add] fills the
    first free slot, or appends one to an owned storage. *)
Fixpoint first_free (l : list (option Sock)) : option nat :=
  match l with
  | [] => None
  | None :: _ => Some 0%nat
  | Some _ :: l' => S <$> first_free l'
  end.

Definition socketset_add (set : list (option Sock)) (s : Sock)
  : nat * list (option Sock) :=
  match first_free set with
  | Some i => (i, <[i := Some s]> set)
  | None => (length set, set ++ [Some s])
  end.

(** The fields of [GopherServer] the socket calls read or write:
    [socket_map], [sockets], [uring_servers], and the service's memory,
    through which uring buffers are read and written. *)
Record SockState := mkSockState {
  socket_map : gmap N nat;
  sockets : list (option Sock);
  uring_servers : gmap N IoUringServer;
  mem : N -> Byte.byte
}.

Definition set_socket_map (st : SockState) m :=
  mkSockState m (sockets st) (uring_servers st) (mem st).
Definition set_sockets (st : SockState) s :=
  mkSockState (socket_map st) s (uring_servers st) (mem st).
Definition set_uring_servers (st : SockState) u :=
  mkSockState (socket_map st) (sockets st) u (mem st).
Definition set_mem (st : SockState) m :=
  mkSockState (socket_map st) (sockets st) (uring_servers st) m.

(** [GopherServer::new]: empty socket set and tables. *)
Definition init_state (m : N -> Byte.byte) : SockState :=
  mkSockState ∅ [] ∅ m.

(** [NetworkService::socket for GopherServer]. The badge is the handle
    reinterpreted as an integer ([transmute_copy]), i.e. its slot index;
    [Badge::new(id).bits()] is [id]. *)
Definition socket (st : SockState) (domain socket_type _protocol : Z)
  : Result N * SockState :=
  if negb (Z.eqb domain AF_INET) then (Err InvalidArgs, st)
  else if Z.eqb socket_type SOCK_STREAM then
    let '(handle, set') := socketset_add (sockets st) (tcp_new 4096 4096) in
    let badge := N.of_nat handle in
    (Ok badge, set_socket_map (set_sockets st set') (<[badge := handle]> (socket_map st)))
  else (Err NotSupported, st).

(** [SocketSet::get_mut]: panics on a handle with no socket. *)
Definition get_mut (st : SockState) (h : nat) : Outcome Sock :=
  match sockets st !! h with
  | Some (Some s) => Done s
  | _ => Panic
  end.

(** [GopherSocket::bind]. *)
Definition bind (st : SockState) (badge : N) (_address : list Byte.byte)
  : Result unit * SockState :=
  match socket_map st !! badge with
  | None => (Err NotFound, st)
  | Some _ => (Ok tt, st)
  end.

(** [GopherSocket::listen]. *)
Definition listen (st : SockState) (badge : N) (_backlog : Z)
  : Result unit * SockState :=
  match socket_map st !! badge with
  | None => (Err NotFound, st)
  | Some _ => (Ok tt, st)
  end.

(** [GopherSocket::send]. *)
Definition send (st : SockState) (badge : N) (data : list Byte.byte) (_flags : Z)
  : Outcome (Result nat * SockState) :=
  match socket_map st !! badge with
  | None => Done (Err NotFound, st)
  | Some h =>
      match get_mut st h with
      | Panic => Panic
      | Done s =>
          if negb (can_send s) then Done (Err WouldBlock, st)
          else match send_slice s data with
               | Some (n, s') => Done (Ok n, set_sockets st (<[h := Some s']> (sockets st)))
               | None => Done (Err Generic, st)
               end
      end
  end.

(** [GopherSocket::recv]; also returns the caller's buffer afterwards. *)
Definition recv (st : SockState) (badge : N) (buffer : list Byte.byte) (_flags : Z)
  : Outcome (Result nat * list Byte.byte * SockState) :=
  match socket_map st !! badge with
  | None => Done (Err NotFound, buffer, st)
  | Some h =>
      match get_mut st h with
      | Panic => Panic
      | Done s =>
          if negb (can_recv s) then Done (Err WouldBlock, buffer, st)
          else match recv_slice s buffer with
               | Some (n, buffer', s') =>
                   Done (Ok n, buffer', set_sockets st (<[h := Some s']> (sockets st)))
               | None => Done (Err Generic, buffer, st)
               end
      end
  end.

(** [GopherSocket::close]. *)
Definition close (st : SockState) (badge : N) : Result unit * SockState :=
  (Ok tt, set_socket_map st (delete badge (socket_map st))).

(** [GopherSocket::setup_iouring]: after the [NotFound] check the client's
    ring is mapped and a uring server over it is registered for the badge.
    [mapped] is the answer of [res_client.mmap] for the client's frame
    ([Ok] when no frame is passed), whose error is returned by [?];
    [ring] is the server over the mapped ring. *)
Definition setup_iouring (st : SockState) (badge : N) (mapped : Result unit)
    (ring : IoUringServer) : Result unit * SockState :=
  match socket_map st !! badge with
  | None => (Err NotFound, st)
  | Some _ =>
      match mapped with
      | Err e => (Err e, st)
      | Ok _ => (Ok tt, set_uring_servers st (<[badge := ring]> (uring_servers st)))
      end
  end.

(** Raw buffers of uring entries: [sqe.len] bytes at [sqe.addr] of the
    service's memory. *)
Definition read_mem (m : N -> Byte.byte) (a len : N) : list Byte.byte :=
  map (fun i => m (a + N.of_nat i)) (seq 0 (N.to_nat len)).

Definition write_mem (m : N -> Byte.byte) (a : N) (bytes : list Byte.byte)
  : N -> Byte.byte :=
  fun x => if (a <=? x) && (x <? a + N.of_nat (length bytes))
           then nth (N.to_nat (x - a)) bytes Byte.x00 else m x.

(** [n as i32] for a [usize] [n]. *)
Definition wrap_i32 (z : Z) : Z :=
  let m := (z mod 2 ^ 32)%Z in
  if (m <? 2 ^ 31)%Z then m else (m - 2 ^ 32)%Z.

Section Uring.

(** [IOURING_OP_READ], [IOURING_OP_WRITE] and the [i32] discriminant of
    each [Error] variant, all fixed by glenda. *)
Variables IOURING_OP_READ IOURING_OP_WRITE : N.
Variable err_code : Error -> Z.

(** [let _ = uring_server.complete(user_data, res)]. *)
Definition complete_ignore (u : IoUringServer) (ud : N) (res : Z) : IoUringServer :=
  match complete u ud res with
  | Ok u' => u'
  | Err _ => u
  end.

(** The body of the [while let] loop of [GopherSocket::process_iouring]
    for one entry. *)
Definition process_entry (st : SockState) (badge : N) (u : IoUringServer) (sqe : USqe)
  : Outcome (SockState * IoUringServer) :=
  if N.eqb (usqe_opcode sqe) IOURING_OP_READ then
    let buf := read_mem (mem st) (usqe_addr sqe) (usqe_len sqe) in
    match recv st badge buf 0 with
    | Panic => Panic
    | Done (r, buf', st') =>
        let st'' := set_mem st' (write_mem (mem st') (usqe_addr sqe) buf') in
        match r with
        | Ok len => Done (st'', complete_ignore u (usqe_user_data sqe) (wrap_i32 (Z.of_nat len)))
        | Err e => Done (st'', complete_ignore u (usqe_user_data sqe) (- err_code e)%Z)
        end
    end
  else if N.eqb (usqe_opcode sqe) IOURING_OP_WRITE then
    let buf := read_mem (mem st) (usqe_addr sqe) (usqe_len sqe) in
    match send st badge buf 0 with
    | Panic => Panic
    | Done (r, st') =>
        match r with
        | Ok len => Done (st', complete_ignore u (usqe_user_data sqe) (wrap_i32 (Z.of_nat len)))
        | Err e => Done (st', complete_ignore u (usqe_user_data sqe) (- err_code e)%Z)
        end
    end
  else Done (st, complete_ignore u (usqe_user_data sqe) (- err_code NotSupported)%Z).

(** [while let Some(sqe) = uring_server.next_request() { ... }]. Every
    iteration pops one entry and the body pushes none, so [length ur_sq]
    iterations drain the queue. *)
Fixpoint process_loop (fuel : nat) (st : SockState) (badge : N) (u : IoUringServer)
  : Outcome (SockState * IoUringServer) :=
  match fuel with
  | O => Done (st, u)
  | S fuel' =>
      match next_request u with
      | None => Done (st, u)
      | Some (sqe, u1) =>
          match process_entry st badge u1 sqe with
          | Panic => Panic
          | Done (st', u') => process_loop fuel' st' badge u'
          end
      end
  end.

(** [GopherSocket::process_iouring]: the uring server is taken out of the
    table, drained, and put back. *)
Definition process_iouring (st : SockState) (badge : N)
  : Outcome (Result unit * SockState) :=
  match uring_servers st !! badge with
  | None => Done (Err NotFound, st)
  | Some u =>
      let st0 := set_uring_servers st (delete badge (uring_servers st)) in
      match process_loop (length (ur_sq u)) st0 badge u with
      | Panic => Panic
      | Done (st', u') =>
          Done (Ok tt, set_uring_servers st' (<[badge := u']> (uring_servers st')))
      end
  end.

(** C6 as the specification words it: the pending entries are served in
    order, a READ entry by [recv] into its buffer, a WRITE entry by [send]
    of its buffer, the completion's result being the byte count
    ([len as i32]) on success or the negated error code on failure, and an
    entry of any other opcode completing with the negated [NotSupported];
    every completion carries its entry's user_data. [served_completions]
    returns all the completions, with no bound on their number, and the
    state after the calls. *)
Definition call_result (r : Result nat) : Z :=
  match r with
  | Ok n => wrap_i32 (Z.of_nat n)
  | Err e => (- err_code e)%Z
  end.

Definition served_entry (st : SockState) (badge : N) (sqe : USqe)
  : Outcome (UCqe * SockState) :=
  let ud := usqe_user_data sqe in
  let buf := read_mem (mem st) (usqe_addr sqe) (usqe_len sqe) in
  if N.eqb (usqe_opcode sqe) IOURING_OP_READ then
    match recv st badge buf 0 with
    | Panic => Panic
    | Done (r, buf', st') =>
        Done (mkUCqe ud (call_result r), set_mem st' (write_mem (mem st') (usqe_addr sqe) buf'))
    end
  else if N.eqb (usqe_opcode sqe) IOURING_OP_WRITE then
    match send st badge buf 0 with
    | Panic => Panic
    | Done (r, st') => Done (mkUCqe ud (call_result r), st')
    end
  else Done (mkUCqe ud (- err_code NotSupported)%Z, st).

Fixpoint served_completions (st : SockState) (badge : N) (l : list USqe)
  : Outcome (list UCqe * SockState) :=
  match l with
  | [] => Done ([], st)
  | sqe :: l' =>
      match served_entry st badge sqe with
      | Panic => Panic
      | Done (c, st1) =>
          match served_completions st1 badge l' with
          | Panic => Panic
          | Done (cs, st2) => Done (c :: cs, st2)
          end
      end
  end.

(** The socket calls a client can make, and the client's own accesses to
    its rings and buffers, which change the uring servers and the memory
    but not the socket table. *)
Inductive sock_step : SockState -> SockState -> Prop :=
| ss_socket st d ty p r st' :
    socket st d ty p = (r, st') -> sock_step st st'
| ss_bind st b a r st' :
    bind st b a = (r, st') -> sock_step st st'
| ss_listen st b k r st' :
    listen st b k = (r, st') -> sock_step st st'
| ss_send st b data r st' :
    send st b data 0 = Done (r, st') -> sock_step st st'
| ss_recv st b buf r buf' st' :
    recv st b buf 0 = Done (r, buf', st') -> sock_step st st'
| ss_close st b r st' :
    close st b = (r, st') -> sock_step st st'
| ss_setup_iouring st b mapped ring r st' :
    setup_iouring st b mapped ring = (r, st') -> sock_step st st'
| ss_process_iouring st b r st' :
    process_iouring st b = Done (r, st') -> sock_step st st'
| ss_client st urings m :
    sock_step st (set_mem (set_uring_servers st urings) m).

Inductive sock_reachable : SockState -> Prop :=
| sr_init m : sock_reachable (init_state m)
| sr_step st st' : sock_reachable st -> sock_step st st' -> sock_reachable st'.

End Uring.

(** Every badge of the socket table names a slot that holds a socket. *)
Definition map_live (st : SockState) : Prop :=
  forall b h, socket_map st !! b = Some h -> exists s, sockets st !! h = Some (Some s).

End WithStack.

(** A small executable TCP stack, used to run the facade on concrete
    inputs: a socket is open (may send and receive) or not, and holds its
    RX and TX bytes and their capacities. As in smoltcp, [send_slice] fails
    on a socket that is not open, [recv_slice] on one that is not open and
    has no RX bytes left; [can_send] asks for an open socket with room in
    its TX buffer, [can_recv] for RX bytes. *)
Record ToySock := mkToySock {
  ts_open : bool;
  ts_rx : list Byte.byte;
  ts_tx : list Byte.byte;
  ts_rx_cap : nat;
  ts_tx_cap : nat
}.

Definition toy_can_send (s : ToySock) : bool :=
  ts_open s && (length (ts_tx s) <? ts_tx_cap s)%nat.
Definition toy_can_recv (s : ToySock) : bool :=
  negb (bool_decide (ts_rx s = [])).
Definition toy_send_slice (s : ToySock) (data : list Byte.byte) : option (nat * ToySock) :=
  if negb (ts_open s) then None
  else let n := Nat.min (length data) (ts_tx_cap s - length (ts_tx s)) in
       Some (n, mkToySock (ts_open s) (ts_rx s) (ts_tx s ++ take n data)
                          (ts_rx_cap s) (ts_tx_cap s)).
Definition toy_recv_slice (s : ToySock) (buf : list Byte.byte)
  : option (nat * list Byte.byte * ToySock) :=
  if negb (ts_open s) && bool_decide (ts_rx s = []) then None
  else let n := Nat.min (length buf) (length (ts_rx s)) in
       Some (n, take n (ts_rx s) ++ drop n buf,
             mkToySock (ts_open s) (drop n (ts_rx s)) (ts_tx s)
                       (ts_rx_cap s) (ts_tx_cap s)).

Lemma toy_send_slice_ready s data :
  toy_can_send s = true -> is_Some (toy_send_slice s data).
Proof.
  unfold toy_can_send, toy_send_slice. intros H.
  apply andb_prop in H as [-> _]. simpl. eauto.
Qed.

Lemma toy_recv_slice_ready s buf :
  toy_can_recv s = true -> is_Some (toy_recv_slice s buf).
Proof.
  unfold toy_can_recv, toy_recv_slice. intros H.
  apply negb_true_iff in H. rewrite H, andb_false_r. simpl. eauto.
Qed.

#[global] Instance ToyStack : TcpStack := {
  Sock := ToySock;
  tcp_new rx tx := mkToySock false [] [] rx tx;
  can_send := toy_can_send;
  can_recv := toy_can_recv;
  send_slice := toy_send_slice;
  recv_slice := toy_recv_slice;
  send_slice_ready := toy_send_slice_ready;
  recv_slice_ready := toy_recv_slice_ready
}.

(** Sample states, over [ToyStack]. *)
Definition demo_mem : N -> Byte.byte := fun _ => Byte.x00.

(** A fresh server, and the server after one [socket(AF_INET, SOCK_STREAM, 0)]. *)
Definition st_fresh : SockState := init_state demo_mem.
Definition st_one : SockState := snd (socket st_fresh AF_INET SOCK_STREAM 0).

(** A sample numbering of the [Error] variants as [i32]. *)
Definition demo_err_code (e : Error) : Z :=
  match e with
  | Success => 0 | NotFound => 1 | InvalidArgs => 2 | WouldBlock => 3
  | Timeout => 4 | NotSupported => 5 | NotInitialized => 6 | IoError => 7
  | InternalError => 8 | Generic => 9
  end.

(** A uring with two entries of an unknown opcode, whose completion queue
    (capacity 2, as its submission queue) still holds one unreaped
    completion. *)
Definition full_ring : IoUringServer :=
  mkUring [mkUSqe 99 0 0 1; mkUSqe 99 0 0 2] [mkUCqe 42 0] 2.
Definition st_full_ring : SockState := set_uring_servers st_one {[0 := full_ring]}.

(** A uring with a WRITE of 5 bytes at address 64 and a READ of 5 bytes at
    address 128 (opcodes 1 and 0), with room for both completions. *)
Definition rw_ring : IoUringServer :=
  mkUring [mkUSqe 1 64 5 7; mkUSqe 0 128 5 8] [] 4.

End Sockets.

(** ** Probe pipeline ([src/gopher/mod.rs]) *)
Module Probe.

Inductive LogicDeviceType := DevNet | DevOther.

Record LogicDeviceDesc := mkDesc {
  desc_name : string;
  desc_type : LogicDeviceType
}.

(** [DeviceVariant]: a real net device (by name) or the loopback. *)
Inductive DeviceVariant :=
| VNet (name : string)
| VLoopback.

(** [InterfaceContext]. The smoltcp interface (addresses, routes) plays no
    part in the claims and is left out; [ic_hw] is a ghost field recording
    the hardware ID [probe] was called with ([None] for the loopback). *)
Record InterfaceContext := mkIface {
  ic_device : DeviceVariant;
  ic_hw : option N
}.

(** The fields of [GopherServer] the pipeline reads or writes;
    [shm_ready] says whether [shm_frame] is [Some]. *)
Record ProbeState := mkProbeState {
  pending_devices : list string;
  probed_hardware : gset N;
  interfaces : list InterfaceContext;
  shm_ready : bool
}.

Definition set_pending_devices (st : ProbeState) q :=
  mkProbeState q (probed_hardware st) (interfaces st) (shm_ready st).

(** The answers of the collaborators during one pass: the device manager
    ([query], [get_logic_desc], [alloc_logic]), the slot allocator, the
    driver ([setup_ring], [setup_shm]) and the memory service ([mmap]). *)
Record ProbeEnv := mkEnv {
  env_query : Result (list string);
  env_logic_desc : string -> Result (N * LogicDeviceDesc);
  env_alloc_slot : Result unit;
  env_alloc_logic : string -> Result unit;
  env_setup_ring : string -> Result unit;
  env_mmap : Result unit;
  env_setup_shm : string -> Result unit
}.

(** After [setup_loopback] in [init]: the loopback interface only. *)
Definition init_probe_state (shm : bool) : ProbeState :=
  mkProbeState [] ∅ [mkIface VLoopback None] shm.

(** [GopherServer::sync_devices]: append every queried name not already
    queued. *)
Definition sync_devices (env : ProbeEnv) (st : ProbeState) : Result unit * ProbeState :=
  match env_query env with
  | Err e => (Err e, st)
  | Ok names =>
      (Ok tt, set_pending_devices st
                (fold_left (fun q n => if bool_decide (n ∈ q) then q else q ++ [n])
                           names (pending_devices st)))
  end.

(** [GopherServer::probe]. *)
Definition probe (env : ProbeEnv) (st : ProbeState) (name : string) (hw_id : N)
    (desc : LogicDeviceDesc) : Result unit * ProbeState :=
  match env_setup_ring env name with
  | Err e => (Err e, st)
  | Ok _ =>
      match env_mmap env with
      | Err e => (Err e, st)
      | Ok _ =>
          if shm_ready st then
            match env_setup_shm env name with
            | Err e => (Err e, st)
            | Ok _ =>
                (Ok tt, mkProbeState (pending_devices st)
                          ({[hw_id]} ∪ probed_hardware st)
                          (interfaces st ++ [mkIface (VNet (desc_name desc)) (Some hw_id)])
                          (shm_ready st))
            end
          else (Err NotInitialized, st)
      end
  end.

(** [GopherServer::process_pending_probes]: [while let Some(name) =
    pending_devices.pop_front()]; every iteration pops one name and none
    pushes, so [length pending_devices] iterations drain the queue. *)
Fixpoint process_pending_probes_loop (fuel : nat) (env : ProbeEnv) (st : ProbeState)
  : Result unit * ProbeState :=
  match fuel with
  | O => (Ok tt, st)
  | S fuel' =>
      match pending_devices st with
      | [] => (Ok tt, st)
      | name :: rest =>
          let st1 := set_pending_devices st rest in
          match env_logic_desc env name with
          | Err e => (Err e, st1)
          | Ok (hw_id, desc) =>
              if (match desc_type desc with DevNet => true | DevOther => false end)
                 && negb (bool_decide (hw_id ∈ probed_hardware st1)) then
                match env_alloc_slot env with
                | Err e => (Err e, st1)
                | Ok _ =>
                    match env_alloc_logic env name with
                    | Err e => (Err e, st1)
                    | Ok _ =>
                        match probe env st1 name hw_id desc with
                        | (Err e, st2) => (Err e, st2)
                        | (Ok _, st2) => process_pending_probes_loop fuel' env st2
                        end
                    end
                end
              else process_pending_probes_loop fuel' env st1
          end
      end
  end.

Definition process_pending_probes (env : ProbeEnv) (st : ProbeState)
  : Result unit * ProbeState :=
  process_pending_probes_loop (length (pending_devices st)) env st.

(** The pipeline as the event loop drives it: device syncs (the initial
    query and every HOOK notification) and probe passes. *)
Inductive probe_step : ProbeState -> ProbeState -> Prop :=
| ps_sync env st r st' : sync_devices env st = (r, st') -> probe_step st st'
| ps_probe env st r st' : process_pending_probes env st = (r, st') -> probe_step st st'.

Inductive probe_reachable : ProbeState -> Prop :=
| pr_init b : probe_reachable (init_probe_state b)
| pr_step st st' : probe_reachable st -> probe_step st st' -> probe_reachable st'.

(** The interfaces [probe] created for hardware ID [hw]. *)
Definition ifaces_for (hw : N) (st : ProbeState) : nat :=
  length (filter (fun ic => ic_hw ic = Some hw) (interfaces st)).

(** Sample environments: the device manager knows "eth0" as hardware 7;
    the driver accepts ([env_ok]) or refuses ([env_ring_fails]) the ring
    setup. *)
Definition env_with_ring (ring : Result unit) : ProbeEnv :=
  mkEnv (Ok ["eth0"%string]) (fun _ => Ok (7, mkDesc "eth0" DevNet)) (Ok tt)
        (fun _ => Ok tt) (fun _ => ring) (Ok tt) (fun _ => Ok tt).
Definition env_ok : ProbeEnv := env_with_ring (Ok tt).
Definition env_ring_fails : ProbeEnv := env_with_ring (Err InternalError).

End Probe.

(** ** Service start ([SystemService::run]) *)
Module Run.

(** A capability pointer; [CapPtr::null()] is 0. *)
Definition CapPtr := N.
Definition null : CapPtr := 0.

(** The fields of [GopherServer] (and of the [GopherManager] draft) that
    [listen] and [run] touch. *)
Record RunState := mkRunState {
  endpoint : CapPtr;
  reply : CapPtr;
  recv_slot : CapPtr;
  running : bool
}.

(** [GopherServer::new] / [GopherManager::new]: null endpoint and reply. *)
Definition new_server : RunState := mkRunState null null null false.

(** [SystemService::listen for GopherServer]. *)
Definition listen (st : RunState) (ep reply recv : CapPtr) : RunState :=
  mkRunState ep reply recv (running st).

(** How [run] ends its prologue: it returns, or it enters the
    [while self.running] loop with the given state. *)
Inductive RunStart :=
| Returned (r : Result unit)
| EnteredLoop (st : RunState).

(** [SystemService::run for GopherServer] (src/gopher/server.rs, lines
    104-107): report Running to init ([report] is init's answer), set
    [running], enter the loop. *)
Definition server_run (report : Result unit) (st : RunState) : RunStart :=
  match report with
  | Err e => Returned (Err e)
  | Ok _ => EnteredLoop (mkRunState (endpoint st) (reply st) (recv_slot st) true)
  end.

(** [SystemService::run for GopherManager] (src/gopher.rs, lines 126-130). *)
Definition manager_run (st : RunState) : RunStart :=
  if N.eqb (endpoint st) null || N.eqb (reply st) null
  then Returned (Err NotInitialized)
  else EnteredLoop (mkRunState (endpoint st) (reply st) (recv_slot st) true).

(** One iteration of the [GopherServer] loop when [endpoint.recv] fails
    (as it does on a null endpoint): the error is logged and the loop
    continues with the state unchanged. *)
Definition server_loop_recv_error (st : RunState) (_e : Error) : RunState := st.

End Run.

(** ** Request dispatch and reply ([src/gopher/server.rs]) *)
Module Dispatch.
Import Sockets.

(** The message tag of the UTCB: as received, or set by
    [MsgTag::ok()] / [MsgTag::err()]. *)
Inductive MsgTag := TagCall | TagOk | TagErr.

(** The UTCB fields the socket arms touch: the tag, message register 0,
    the payload size and the IPC buffer ([buffer_mut()]). *)
Record Utcb := mkUtcb {
  u_tag : MsgTag;
  u_mr0 : N;
  u_size : nat;
  u_buf : list Byte.byte
}.

Definition set_tag (u : Utcb) (t : MsgTag) : Utcb :=
  mkUtcb t (u_mr0 u) (u_size u) (u_buf u).

(** The arms of [GopherServer::dispatch] written out in the source (the
    others go through glenda's [handle_call]). The payload [u.buffer()]
    of BIND, CONNECT and SEND is carried by the request. *)
Inductive Request :=
| ReqBind (addr : list Byte.byte)
| ReqConnect (addr : list Byte.byte)
| ReqSend (data : list Byte.byte)
| ReqRecv.

Section WithStack.
Context `{T : TcpStack}.

(** [GopherSocket::connect]: a stub. *)
Definition connect (st : SockState) (_badge : N) (_address : list Byte.byte)
  : Result unit * SockState :=
  (Err NotSupported, st).

(** One arm of [dispatch] for the caller's [badge]. *)
Definition dispatch_arm (req : Request) (st : SockState) (badge : N) (u : Utcb)
  : Outcome (Result unit * SockState * Utcb) :=
  match req with
  | ReqBind addr =>
      let '(res, st') := bind st badge addr in
      match res with
      | Ok _ => Done (Ok tt, st', set_tag u TagOk)
      | Err e => Done (Err e, st', u)
      end
  | ReqConnect addr =>
      let '(res, st') := connect st badge addr in
      match res with
      | Ok _ => Done (Ok tt, st', set_tag u TagOk)
      | Err e => Done (Err e, st', u)
      end
  | ReqSend data =>
      match send st badge data 0 with
      | Panic => Panic
      | Done (res, st') =>
          match res with
          | Ok len => Done (Ok tt, st', mkUtcb TagOk (N.of_nat len) (u_size u) (u_buf u))
          | Err e => Done (Err e, st', u)
          end
      end
  | ReqRecv =>
      (* let mut buf = [0u8; 2048]; *)
      match recv st badge (repeat Byte.x00 2048) 0 with
      | Panic => Panic
      | Done (res, buf, st') =>
          match res with
          | Ok len =>
              (* u.buffer_mut()[..len].copy_from_slice(&buf[..len]) *)
              if (len <=? 2048)%nat && (len <=? length (u_buf u))%nat then
                Done (Ok tt, st', mkUtcb TagOk (u_mr0 u) len
                                        (take len buf ++ drop len (u_buf u)))
              else Panic
          | Err e => Done (Err e, st', u)
          end
      end
  end.

(** [e as usize] for an [Error] variant. *)
Variable err_usize : Error -> N.

(** What the [run] loop does with the result of [dispatch]. *)
Inductive LoopReply :=
| NoReply
| Reply (u : Utcb).

Definition loop_reply (r : Result unit) (u : Utcb) : LoopReply :=
  match r with
  | Ok _ => Reply u
  | Err Success | Err WouldBlock | Err Timeout => NoReply
  | Err e => Reply (mkUtcb TagErr (err_usize e) (u_size u) (u_buf u))
  end.

(** One request served by the loop: dispatch, then reply or not. *)
Definition serve (req : Request) (st : SockState) (badge : N) (u : Utcb)
  : Outcome (LoopReply * SockState) :=
  match dispatch_arm req st badge u with
  | Panic => Panic
  | Done (r, st', u') => Done (loop_reply r u', st')
  end.

End WithStack.

(** A received call with an empty payload and a 4 KiB IPC buffer. *)
Definition utcb0 : Utcb := mkUtcb TagCall 0 0 (repeat Byte.x00 4096).

End Dispatch.

(** ** Global SHM pool sizing ([SystemService::init], src/gopher/server.rs) *)
Module Init.

(** [default_buffer_size()] of src/gopher/config.rs. *)
Definition default_buffer_size : N := 1024 * 1024.

(** Step 1 of [init]: [buffer_size] of the loaded config, or 1 MiB
    without one; the page count and the page-aligned pool size. Computed
    on [N]; the [usize] arithmetic agrees as long as
    [shm_size + 4095 < 2^64]. *)
Definition shm_layout (config_buffer_size : option N) : N * N :=
  let shm_size := match config_buffer_size with Some s => s | None => 1024 * 1024 end in
  let shm_pages := (shm_size + 4095) / 4096 in
  let shm_size_aligned := shm_pages * 4096 in
  (shm_pages, shm_size_aligned).

End Init.

(** ** Facts about the net device adapter *)
Module NetDevFacts.
Import NetDev.

Lemma count_rx_req_app id l1 l2 :
  count_rx_req id (l1 ++ l2) = (count_rx_req id l1 + count_rx_req id l2)%nat.
Proof. induction l1 as [|r l1 IH]; simpl; [done | rewrite IH; lia]. Qed.

Lemma count_rx_cqe_app id l1 l2 :
  count_rx_cqe id (l1 ++ l2) = (count_rx_cqe id l1 + count_rx_cqe id l2)%nat.
Proof. induction l1 as [|e l1 IH]; simpl; [done | rewrite IH; lia]. Qed.

Lemma count_rx_req_delete id (l : list Sqe) i r :
  l !! i = Some r ->
  count_rx_req id l =
    ((if N.eqb (sqe_opcode r) OP_READ && N.eqb (sqe_user_data r) id then 1 else 0)
     + count_rx_req id (delete i l))%nat.
Proof.
  revert i. induction l as [|r' l IH]; intros [|i] Hi; simpl in *; try done.
  - injection Hi as ->. lia.
  - rewrite (IH i Hi). lia.
Qed.

Section Inv.

Variable tx_ud : N.
Hypothesis tx_ud_not_rx : tx_ud <> 256.

Lemma dev_inv_new v : dev_inv tx_ud (new_device v).
Proof.
  repeat split; simpl; try done.
Qed.

Lemma dev_inv_receive ok d tok d' :
  dev_inv tx_ud d -> receive ok d = Done (tok, d') -> dev_inv tx_ud d'.
Proof.
  destruct d as [[sh q c] p id].
  intros (Hid & Hf & Hc & Hs) H; simpl in *; subst id.
  unfold receive, rx_outstanding, rx_unseen, peek_cqe, submit_recv in *;
    simpl in *.
  repeat (case_match; simpl in *; simplify_eq/=).
  all: unfold dev_inv, rx_outstanding, rx_unseen, set_pending, set_client; simpl.
  all: rewrite ?count_rx_req_app; simpl.
  all: repeat split; try done; try lia.
  all: try (apply Forall_app; split; [done | repeat constructor; by left]).
Qed.

Lemma dev_inv_transmit ok len d d' :
  dev_inv tx_ud d -> tx_consume ok tx_ud len d = Done d' -> dev_inv tx_ud d'.
Proof.
  destruct d as [[sh q c] p id].
  intros (Hid & Hf & Hc & Hs) H; simpl in *; subst id.
  unfold tx_consume, send_packet in H; simpl in H.
  repeat (case_match; simpl in *; simplify_eq/=).
  all: unfold dev_inv, rx_outstanding, rx_unseen, set_client in *; simpl in *.
  all: rewrite ?count_rx_req_app; simpl.
  all: repeat split; try done; try lia.
  all: apply Forall_app; split; [done | constructor; [by right | constructor]].
Qed.

Lemma dev_inv_setup_shm v d :
  dev_inv tx_ud d -> dev_inv tx_ud (setup_shm v d).
Proof.
  destruct d as [[sh q c] p id].
  intros (Hid & Hf & Hc & Hs); repeat split; simpl in *; done.
Qed.

Lemma dev_inv_driver i res d d' :
  dev_inv tx_ud d -> driver_complete i res d = Some d' -> dev_inv tx_ud d'.
Proof.
  destruct d as [[sh q c] p id].
  intros (Hid & Hf & Hc & Hs) H; simpl in *; subst id.
  unfold driver_complete in H; simpl in H.
  destruct (q !! i) as [r|] eqn:Hr; simplify_eq/=.
  pose proof (count_rx_req_delete 256 q i r Hr) as Hdel.
  assert (Hrok : req_ok tx_ud 256 r).
  { eapply Forall_lookup_1; eauto. }
  unfold dev_inv, rx_outstanding, rx_unseen, set_client in *; simpl in *.
  rewrite count_rx_cqe_app; simpl.
  repeat split; try done.
  - by apply Forall_delete.
  - destruct Hrok as [[Hop Hud] | [Hop Hud]]; rewrite Hop, Hud in Hdel;
      rewrite Hud; simpl in *.
    + lia.
    + assert (Hne : (tx_ud =? 256) = false) by (apply N.eqb_neq; done).
      rewrite ?Hne in *; simpl in *; lia.
Qed.

Lemma dev_inv_step d d' :
  dev_inv tx_ud d -> dev_step tx_ud d d' -> dev_inv tx_ud d'.
Proof.
  intros Hi Hs; destruct Hs.
  - eapply dev_inv_receive; eauto.
  - eapply dev_inv_transmit; eauto.
  - by apply dev_inv_setup_shm.
  - eapply dev_inv_driver; eauto.
Qed.

Lemma reachable_dev_inv d : reachable tx_ud d -> dev_inv tx_ud d.
Proof.
  induction 1 as [v | d d' _ IH Hs].
  - apply dev_inv_new.
  - eapply dev_inv_step; eauto.
Qed.

(** C4: on every device reachable from [GlendaNetDevice::new] through
    receive calls, transmissions, SHM attachment and driver completions, at
    most one RX submission is outstanding: the RX reads the driver has not
    completed plus the RX completions the device has not consumed number at
    most one. *)
Theorem rx_outstanding_at_most_one d :
  reachable tx_ud d -> (rx_outstanding d + rx_unseen d <= 1)%nat.
Proof.
  intros Hr. destruct (reachable_dev_inv d Hr) as (_ & _ & Hc & _).
  destruct (rx_pending d); lia.
Qed.

(** C5 (amended): on every reachable device with an SHM view of at least
    2048 bytes, [receive] does what the specification describes: its
    returned token, its in-flight flag afterwards and its submissions are
    those of [receive_claim]. With a smaller SHM view and no RX in flight,
    [receive] panics at the slice [shm.as_mut_slice()[..2048]]. *)
Theorem receive_follows_spec ok d v :
  reachable tx_ud d -> shm (client d) = Some v ->
  (2048 <= shm_size v ->
   exists tok d',
     receive ok d = Done (tok, d') /\
     receive_claim ok d = (tok, rx_pending d', sq (client d'))) /\
  (shm_size v < 2048 -> rx_pending d = false -> receive ok d = Panic).
Proof.
  intros Hr Hshm. destruct (reachable_dev_inv d Hr) as (Hid & _ & Hc & _).
  destruct d as [[sh q c] p id]; simpl in *; subst id sh.
  unfold rx_outstanding, rx_unseen in Hc; simpl in Hc.
  split.
  - intros Hbig. apply N.leb_le in Hbig.
    unfold receive, receive_claim, peek_cqe, submit_recv; simpl. rewrite Hbig.
    destruct p, ok, c as [|e c]; simpl in *;
      try (destruct (cqe_user_data e =? 256) eqn:He; simpl in *);
      try (destruct (0 <? cqe_res e)%Z eqn:Hres); simpl;
      eauto; lia.
  - intros Hsmall ->. unfold receive; simpl.
    destruct (N.leb_spec 2048 (shm_size v)); [lia | done].
Qed.

End Inv.
Section ShmInv.

Variable tx_ud : N.

Lemma shm_inv_step d d' : shm_inv d -> dev_step tx_ud d d' -> shm_inv d'.
Proof.
  destruct d as [[sh q c] p id]; unfold shm_inv; simpl.
  intros Hs Hst; inversion Hst as [ok d0 tok d0' H|ok len d0 d0' H|v d0|i res d0 d0' H];
    subst.
  - unfold receive, peek_cqe, submit_recv in H; simpl in H.
    repeat (case_match; simpl in *; simplify_eq/=); unfold set_pending, set_client;
      simpl; try done; intros _; congruence.
  - unfold tx_consume, send_packet in H; simpl in H.
    repeat (case_match; simpl in *; simplify_eq/=); done.
  - done.
  - unfold driver_complete in H; simpl in H.
    repeat (case_match; simpl in *; simplify_eq/=); done.
Qed.

Lemma reachable_shm_inv d : reachable tx_ud d -> shm_inv d.
Proof.
  induction 1 as [v | d d' _ IH Hs].
  - by unfold shm_inv.
  - eapply shm_inv_step; eauto.
Qed.

(** C10: on every reachable device with no SHM view attached, [receive]
    returns nothing and leaves the device unchanged: it submits no RX
    request and keeps the pending flag and the tag. Such a device can
    therefore never yield an RX token. *)
Theorem receive_without_shm ok d :
  reachable tx_ud d -> shm (client d) = None -> receive ok d = Done (None, d).
Proof.
  intros Hr Hnone.
  pose proof (reachable_shm_inv d Hr) as Hs; unfold shm_inv in Hs.
  destruct d as [[sh q c] p id]; simpl in *; subst sh.
  destruct p; [by exfalso; apply Hs|].
  reflexivity.
Qed.

End ShmInv.

End NetDevFacts.

(** ** Witnesses for the device adapter *)
Module NetDevWitness.
Import NetDev NetDevFacts.

Lemma rx_outstanding_at_most_one_witness :
  (rx_outstanding demo_dev + rx_unseen demo_dev <= 1)%nat.
Proof.
  apply (rx_outstanding_at_most_one 0); [discriminate|].
  eapply reach_step; [apply (reach_new 0 (Some demo_shm))|].
  eapply (st_receive 0 true); vm_compute; reflexivity.
Defined.

Lemma receive_follows_spec_witness :
  exists tok d',
    receive true demo_dev = Done (tok, d') /\
    receive_claim true demo_dev = (tok, rx_pending d', sq (client d')).
Proof.
  refine (proj1 (receive_follows_spec 0 _ true demo_dev demo_shm _ _) _).
  - discriminate.
  - eapply reach_step; [apply (reach_new 0 (Some demo_shm))|].
    eapply (st_receive 0 true); vm_compute; reflexivity.
  - reflexivity.
  - vm_compute. discriminate.
Defined.

(** C5 fails for a small SHM view: the global pool of a server configured
    with [buffer_size = 0] is 0 bytes; a device given that pool by
    [setup_shm] panics in its first [receive], where the specification's
    steps submit the 2 KiB RX read. *)
Lemma receive_small_shm_panics :
  snd (Init.shm_layout (Some 0)) = 0 /\
  receive true (setup_shm (mkShm 4096 (snd (Init.shm_layout (Some 0)))) (new_device None))
    = Panic /\
  receive_claim true (setup_shm (mkShm 4096 (snd (Init.shm_layout (Some 0)))) (new_device None))
    = (None, true, [mkSqe OP_READ 0 2048 256]).
Proof. vm_compute. repeat split; reflexivity. Qed.

Lemma receive_without_shm_witness :
  receive true (new_device None) = Done (None, new_device None).
Proof.
  apply (receive_without_shm 0); [apply reach_new | reflexivity].
Defined.

End NetDevWitness.

(** ** Facts about the socket facade *)
Module SocketFacts.
Import Sockets.

Section Facts.
Context `{T : TcpStack}.

Lemma first_free_lookup (l : list (option Sock)) i :
  first_free l = Some i -> l !! i = Some None.
Proof.
  revert i; induction l as [|[s|] l IH]; intros i H; simpl in *; try done.
  - destruct (first_free l) as [j|] eqn:Hj; simpl in H; [|done].
    injection H as <-. simpl. by apply IH.
  - by injection H as <-.
Qed.

Lemma map_live_init m : map_live (init_state m).
Proof. intros b h H. simpl in H. by rewrite lookup_empty in H. Qed.

Lemma map_live_sockets st m :
  socket_map st = socket_map m -> sockets st = sockets m -> map_live st -> map_live m.
Proof. intros Hm Hs Hl b h H. rewrite <- Hs. apply (Hl b h). by rewrite Hm. Qed.

Lemma map_live_update st h s' :
  map_live st -> (exists s, sockets st !! h = Some (Some s)) ->
  map_live (set_sockets st (<[h := Some s']> (sockets st))).
Proof.
  intros Hl [s Hs] b h' H; simpl in *.
  destruct (decide (h = h')) as [<-|Hne].
  - exists s'. apply list_lookup_insert_eq. by eapply lookup_lt_Some.
  - rewrite list_lookup_insert_ne; [|done]. by apply (Hl b h').
Qed.

Lemma map_live_socket st d ty p r st' :
  map_live st -> socket st d ty p = (r, st') -> map_live st'.
Proof.
  intros Hl H. unfold socket, socketset_add in H.
  destruct (negb (d =? AF_INET)%Z); [by simplify_eq|].
  destruct (ty =? SOCK_STREAM)%Z; [|by simplify_eq].
  destruct (first_free (sockets st)) as [i|] eqn:Hf; simplify_eq/=;
    intros b h H; simpl in *.
  - pose proof (first_free_lookup _ _ Hf) as Hi.
    destruct (decide (h = i)) as [->|Hne].
    + exists (tcp_new 4096 4096). apply list_lookup_insert_eq. by eapply lookup_lt_Some.
    + rewrite list_lookup_insert_ne; [|done].
      destruct (decide (b = N.of_nat i)) as [->|Hb].
      * rewrite lookup_insert_eq in H. congruence.
      * rewrite lookup_insert_ne in H; [|done]. by apply (Hl b h).
  - destruct (decide (b = N.of_nat (length (sockets st)))) as [->|Hb].
    + rewrite lookup_insert_eq in H. injection H as <-.
      exists (tcp_new 4096 4096). rewrite lookup_app_r; [|lia].
      by rewrite Nat.sub_diag.
    + rewrite lookup_insert_ne in H; [|done].
      destruct (Hl b h H) as [s Hs]. exists s.
      rewrite lookup_app_l; [done|]. by eapply lookup_lt_Some.
Qed.

Lemma map_live_send st b data fl r st' :
  map_live st -> send st b data fl = Done (r, st') -> map_live st'.
Proof.
  intros Hl H. unfold send, get_mut in H.
  destruct (socket_map st !! b) as [h|] eqn:Hb; [|by simplify_eq].
  destruct (sockets st !! h) as [[s|]|] eqn:Hs; try done.
  destruct (negb (can_send s)); [by simplify_eq|].
  destruct (send_slice s data) as [[n s']|]; simplify_eq; [|done].
  apply map_live_update; eauto.
Qed.

Lemma map_live_recv st b buf fl r buf' st' :
  map_live st -> recv st b buf fl = Done (r, buf', st') -> map_live st'.
Proof.
  intros Hl H. unfold recv, get_mut in H.
  destruct (socket_map st !! b) as [h|] eqn:Hb; [|by simplify_eq].
  destruct (sockets st !! h) as [[s|]|] eqn:Hs; try done.
  destruct (negb (can_recv s)); [by simplify_eq|].
  destruct (recv_slice s buf) as [[[n b'] s']|]; simplify_eq; [|done].
  apply map_live_update; eauto.
Qed.

(** C9: [close] always succeeds, also on a badge absent from the socket
    table, where (unlike [bind], [send], [recv] and [setup_iouring], which
    return [NotFound]) it changes nothing; it removes the badge's mapping,
    and a second [close] of the same badge succeeds and leaves the state
    unchanged. *)
Theorem close_always_ok_idempotent st b addr data buf mapped ring :
  fst (close st b) = Ok tt /\
  socket_map (snd (close st b)) = delete b (socket_map st) /\
  close (snd (close st b)) b = (Ok tt, snd (close st b)) /\
  (socket_map st !! b = None ->
     close st b = (Ok tt, st) /\
     bind st b addr = (Err NotFound, st) /\
     send st b data 0 = Done (Err NotFound, st) /\
     recv st b buf 0 = Done (Err NotFound, buf, st) /\
     setup_iouring st b mapped ring = (Err NotFound, st)).
Proof.
  destruct st as [m socks urs me]. unfold close; simpl.
  split; [done|]. split; [done|]. split.
  - by rewrite delete_delete_eq.
  - intros Hn. unfold bind, send, recv, setup_iouring; simpl. rewrite Hn.
    by rewrite delete_id.
Qed.

(** C1 (code bug): [bind] is a stub: for a badge of the socket table it
    returns [Ok] whatever the address (short or not), without parsing it
    and without changing any state (no socket is put into LISTEN); for
    any other badge it returns [NotFound]. The specification's port
    parsing, [InvalidArgs] and [listen] are only in the
    [GopherManager::bind_socket] draft. *)
Theorem bind_is_stub st b addr addr' :
  bind st b addr = bind st b addr' /\
  snd (bind st b addr) = st /\
  fst (bind st b addr) =
    match socket_map st !! b with Some _ => Ok tt | None => Err NotFound end.
Proof. unfold bind. by case_match. Qed.

(** C3 (amended): [socket] returns [InvalidArgs] for a domain other than
    [AF_INET], [NotSupported] for a type other than [SOCK_STREAM], and
    otherwise puts one new TCP socket with 4 KiB RX and TX buffers into the
    first free slot of the socket set (or a new slot at its end), records
    (badge -> handle) and returns as badge the slot index itself. *)
Theorem socket_call_result st d ty p :
  (d <> AF_INET -> socket st d ty p = (Err InvalidArgs, st)) /\
  (ty <> SOCK_STREAM -> d = AF_INET -> socket st d ty p = (Err NotSupported, st)) /\
  exists h st',
    socket st AF_INET SOCK_STREAM p = (Ok (N.of_nat h), st') /\
    (first_free (sockets st) = Some h \/
     (first_free (sockets st) = None /\ h = length (sockets st))) /\
    sockets st' !! h = Some (Some (tcp_new 4096 4096)) /\
    (forall h', h' <> h -> sockets st' !! h' = sockets st !! h') /\
    socket_map st' = <[N.of_nat h := h]> (socket_map st).
Proof.
  split; [|split].
  - intros Hd. unfold socket. apply Z.eqb_neq in Hd. by rewrite Hd.
  - intros Ht ->. unfold socket. apply Z.eqb_neq in Ht. by rewrite Ht.
  - unfold socket, socketset_add; simpl.
    destruct (first_free (sockets st)) as [i|] eqn:Hf.
    + pose proof (first_free_lookup _ _ Hf) as Hi.
      eexists i, _. split; [done|]. split; [by left|]. simpl.
      split; [apply list_lookup_insert_eq; by eapply lookup_lt_Some|].
      split; [|done]. intros h' Hne. by rewrite list_lookup_insert_ne.
    + eexists (length (sockets st)), _. split; [done|]. split; [by right|]. simpl.
      split; [rewrite lookup_app_r; [by rewrite Nat.sub_diag | lia]|].
      split; [|done]. intros h' Hne.
      destruct (decide (h' < length (sockets st))%nat).
      * by rewrite lookup_app_l.
      * rewrite lookup_app_r; [|lia]. rewrite (lookup_ge_None_2 (sockets st) h'); [|lia].
        destruct (h' - length (sockets st))%nat eqn:E; [lia|done].
Qed.

Section UringFacts.
Variables IOURING_OP_READ IOURING_OP_WRITE : N.
Variable err_code : Error -> Z.

Lemma send_result st b data fl :
  map_live st ->
  exists r st', send st b data fl = Done (r, st') /\ map_live st'.
Proof.
  intros Hl. destruct (send st b data fl) as [[r st']|] eqn:Hs.
  - exists r, st'. split; [done|]. eapply map_live_send; eauto.
  - unfold send, get_mut in Hs.
    destruct (socket_map st !! b) as [h|] eqn:Hb; [|done].
    destruct (Hl b h Hb) as [s Hs']. rewrite Hs' in Hs.
    by repeat case_match.
Qed.

Lemma recv_result st b buf fl :
  map_live st ->
  exists r buf' st', recv st b buf fl = Done (r, buf', st') /\ map_live st'.
Proof.
  intros Hl. destruct (recv st b buf fl) as [[[r buf'] st']|] eqn:Hs.
  - exists r, buf', st'. split; [done|]. eapply map_live_recv; eauto.
  - unfold recv, get_mut in Hs.
    destruct (socket_map st !! b) as [h|] eqn:Hb; [|done].
    destruct (Hl b h Hb) as [s Hs']. rewrite Hs' in Hs.
    by repeat case_match.
Qed.

Lemma served_entry_live st b sqe :
  map_live st ->
  exists c st', served_entry IOURING_OP_READ IOURING_OP_WRITE err_code st b sqe = Done (c, st') /\
    ucqe_user_data c = usqe_user_data sqe /\ map_live st'.
Proof.
  intros Hl. unfold served_entry.
  destruct (usqe_opcode sqe =? IOURING_OP_READ).
  - destruct (recv_result st b (read_mem (mem st) (usqe_addr sqe) (usqe_len sqe)) 0 Hl)
      as (r & buf' & st' & -> & Hl').
    eexists _, _; split; [reflexivity|]. split; [done|].
    eapply map_live_sockets; [| |exact Hl']; done.
  - destruct (usqe_opcode sqe =? IOURING_OP_WRITE).
    + destruct (send_result st b (read_mem (mem st) (usqe_addr sqe) (usqe_len sqe)) 0 Hl)
        as (r & st' & -> & Hl').
      by eexists _, _.
    + by eexists _, _.
Qed.

Lemma served_completions_live (l : list USqe) st b :
  map_live st ->
  exists cs st', served_completions IOURING_OP_READ IOURING_OP_WRITE err_code st b l = Done (cs, st') /\
    map ucqe_user_data cs = map usqe_user_data l /\ map_live st'.
Proof.
  revert st. induction l as [|sqe l IH]; intros st Hl; simpl.
  - by eexists [], st.
  - destruct (served_entry_live st b sqe Hl) as (c & st1 & -> & Hud & Hl1).
    destruct (IH st1 Hl1) as (cs & st2 & -> & Hcs & Hl2).
    exists (c :: cs), st2. simpl. by rewrite Hud, Hcs.
Qed.

(** One iteration of the loop serves the entry as [served_entry] does and
    hands its completion to [complete], whose result is ignored. *)
Lemma process_entry_served st b u sqe :
  process_entry IOURING_OP_READ IOURING_OP_WRITE err_code st b u sqe =
    match served_entry IOURING_OP_READ IOURING_OP_WRITE err_code st b sqe with
    | Panic => Panic
    | Done (c, st') => Done (st', complete_ignore u (ucqe_user_data c) (ucqe_res c))
    end.
Proof.
  unfold process_entry, served_entry, call_result.
  destruct (usqe_opcode sqe =? IOURING_OP_READ).
  - destruct (recv _ _ _ _) as [[[[n|e] buf'] st']|]; reflexivity.
  - destruct (usqe_opcode sqe =? IOURING_OP_WRITE); [|reflexivity].
    destruct (send _ _ _ _) as [[[n|e] st']|]; reflexivity.
Qed.

(** [complete] appends the completion while the queue has room, and
    [take] of the free room expresses both cases. *)
Lemma complete_ignore_take u ud res :
  complete_ignore u ud res =
    mkUring (ur_sq u) (ur_cq u ++ take (ur_cq_cap u - length (ur_cq u)) [mkUCqe ud res])
            (ur_cq_cap u).
Proof.
  destruct u as [q c k]. unfold complete_ignore, complete; simpl.
  destruct (Nat.ltb_spec (length c) k).
  - replace (k - length c)%nat with (S (k - length c - 1)) by lia. simpl. by rewrite take_nil.
  - replace (k - length c)%nat with 0%nat by lia. simpl. by rewrite app_nil_r.
Qed.

Lemma take_room_step {A} (q : list A) k c cs :
  let q' := q ++ take (k - length q) [c] in
  q' ++ take (k - length q') cs = q ++ take (k - length q) (c :: cs).
Proof.
  simpl. destruct (k - length q)%nat as [|m] eqn:E; simpl.
  - rewrite !app_nil_r, E. simpl. apply app_nil_r.
  - rewrite take_nil, length_app. simpl. replace (k - (length q + 1))%nat with m by lia.
    by rewrite <- app_assoc.
Qed.

(** The loop of [process_iouring] drains every entry and appends to the
    completion queue the completions of [served_completions] as long as
    the queue has room: the first [ur_cq_cap - length ur_cq] of them. *)
Lemma process_loop_served (l : list USqe) st b u cs st' :
  ur_sq u = l ->
  served_completions IOURING_OP_READ IOURING_OP_WRITE err_code st b l = Done (cs, st') ->
  process_loop IOURING_OP_READ IOURING_OP_WRITE err_code (length l) st b u =
    Done (st', mkUring [] (ur_cq u ++ take (ur_cq_cap u - length (ur_cq u)) cs) (ur_cq_cap u)).
Proof.
  revert st u cs. induction l as [|sqe l IH]; intros st u cs Hq Hs; simpl in *.
  - simplify_eq. destruct u; simpl in *; subst. by rewrite take_nil, app_nil_r.
  - unfold next_request. rewrite Hq. rewrite process_entry_served.
    destruct (served_entry _ _ _ st b sqe) as [[c st1]|]; [|done].
    destruct (served_completions _ _ _ st1 b l) as [[cs' st2]|] eqn:Hrest; [|done].
    simplify_eq. rewrite complete_ignore_take.
    rewrite (IH st1 (mkUring l _ _) cs' eq_refl Hrest). simpl.
    do 3 f_equal. destruct c. apply take_room_step.
Qed.

Lemma process_loop_live fuel st b u st' u' :
  map_live st ->
  process_loop IOURING_OP_READ IOURING_OP_WRITE err_code fuel st b u = Done (st', u') ->
  map_live st'.
Proof.
  revert st u. induction fuel as [|fuel IH]; intros st u Hl H; simpl in H.
  - by simplify_eq.
  - destruct (next_request u) as [[sqe u1]|]; [|by simplify_eq].
    rewrite process_entry_served in H.
    destruct (served_entry_live st b sqe Hl) as (c & st1 & He & _ & Hl1).
    rewrite He in H. eauto.
Qed.

Lemma map_live_step st st' :
  map_live st -> sock_step IOURING_OP_READ IOURING_OP_WRITE err_code st st' -> map_live st'.
Proof.
  intros Hl Hs; destruct Hs as
    [st d ty p r st' H|st b a r st' H|st b k r st' H|st b data r st' H
    |st b buf r buf' st' H|st b r st' H|st b mp ring r st' H|st b r st' H|st urings m].
  - eapply map_live_socket; eauto.
  - unfold bind in H. by case_match; simplify_eq.
  - unfold listen in H. by case_match; simplify_eq.
  - eapply map_live_send; eauto.
  - eapply map_live_recv; eauto.
  - unfold close in H; simplify_eq. intros b' h Hb; simpl in Hb.
    apply (Hl b' h). by apply lookup_delete_Some in Hb as [_ ?].
  - unfold setup_iouring in H. by repeat case_match; simplify_eq.
  - unfold process_iouring in H.
    destruct (uring_servers st !! b) as [u|]; [|by simplify_eq].
    destruct (process_loop _ _ _ _ _ _ _) as [[st1 u1]|] eqn:Hp; [|done].
    simplify_eq. eapply (map_live_sockets st1); [done|done|].
    eapply process_loop_live; [|exact Hp]. done.
  - done.
Qed.

Lemma sock_reachable_live st :
  sock_reachable IOURING_OP_READ IOURING_OP_WRITE err_code st -> map_live st.
Proof.
  induction 1 as [m|st st' _ IH Hs]; [apply map_live_init|].
  eapply map_live_step; eauto.
Qed.

(** C6 (amended): [process_iouring] drains all N pending entries of the
    badge's uring server and serves them in order as the specification
    words it ([served_completions]: READ by [recv], WRITE by [send], the
    byte count or the negated error, the negated [NotSupported] for any
    other opcode, each with its entry's user_data); of these N
    completions, only those the completion queue has room for are
    appended, the others being lost, so the queue gets all N exactly when
    it has room for N. *)
Theorem process_iouring_completes_all st b u :
  sock_reachable IOURING_OP_READ IOURING_OP_WRITE err_code st ->
  uring_servers st !! b = Some u ->
  exists cs st1,
    served_completions IOURING_OP_READ IOURING_OP_WRITE err_code
      (set_uring_servers st (delete b (uring_servers st))) b (ur_sq u) = Done (cs, st1) /\
    length cs = length (ur_sq u) /\
    map ucqe_user_data cs = map usqe_user_data (ur_sq u) /\
    process_iouring IOURING_OP_READ IOURING_OP_WRITE err_code st b =
      Done (Ok tt, set_uring_servers st1
                     (<[b := mkUring [] (ur_cq u ++ take (ur_cq_cap u - length (ur_cq u)) cs)
                                     (ur_cq_cap u)]> (uring_servers st1))) /\
    ((length (ur_cq u) + length (ur_sq u) <= ur_cq_cap u)%nat ->
     take (ur_cq_cap u - length (ur_cq u)) cs = cs).
Proof.
  intros Hr Hu.
  pose proof (sock_reachable_live st Hr) as Hl.
  destruct (served_completions_live (ur_sq u)
              (set_uring_servers st (delete b (uring_servers st))) b Hl)
    as (cs & st1 & Hs & Hud & _).
  assert (Hlen : length cs = length (ur_sq u))
    by (rewrite <- (length_map ucqe_user_data cs), Hud; apply length_map).
  exists cs, st1. split; [done|]. split; [done|]. split; [done|]. split.
  - unfold process_iouring. rewrite Hu.
    by rewrite (process_loop_served (ur_sq u) _ b u cs st1 eq_refl Hs).
  - intros Hroom. apply take_ge. lia.
Qed.

(** C2: on a badge of the socket table, [send] returns [WouldBlock] when
    the socket cannot send, and otherwise enqueues [data] with
    [send_slice] and returns the number of bytes it accepted; [recv]
    returns [WouldBlock] when the socket cannot receive, and otherwise
    dequeues into the buffer with [recv_slice] and returns the byte count.
    A socket that can send (receive) is one that may send (receive), on
    which the stack call does not fail, so no stack error reaches the
    caller: the code's [Generic] mapping is never taken. *)
Theorem send_recv_results st b h data buf fl :
  sock_reachable IOURING_OP_READ IOURING_OP_WRITE err_code st ->
  socket_map st !! b = Some h ->
  exists s,
    sockets st !! h = Some (Some s) /\
    (can_send s = false -> send st b data fl = Done (Err WouldBlock, st)) /\
    (can_send s = true -> exists n s',
       send_slice s data = Some (n, s') /\
       send st b data fl = Done (Ok n, set_sockets st (<[h := Some s']> (sockets st)))) /\
    (can_recv s = false -> recv st b buf fl = Done (Err WouldBlock, buf, st)) /\
    (can_recv s = true -> exists n buf' s',
       recv_slice s buf = Some (n, buf', s') /\
       recv st b buf fl = Done (Ok n, buf', set_sockets st (<[h := Some s']> (sockets st)))).
Proof.
  intros Hr Hb.
  destruct (sock_reachable_live st Hr b h Hb) as [s Hs].
  exists s. split; [done|].
  unfold send, recv, get_mut. rewrite Hb, Hs.
  split; [intros ->; done|]. split.
  - intros Hc. destruct (send_slice_ready s data Hc) as [[n s'] Hsl].
    exists n, s'. rewrite Hc, Hsl. done.
  - split; [intros ->; done|].
    intros Hc. destruct (recv_slice_ready s buf Hc) as [[[n buf'] s'] Hsl].
    exists n, buf', s'. rewrite Hc, Hsl. done.
Qed.

End UringFacts.

End Facts.
End SocketFacts.

(** ** Counterexamples and witnesses for the socket facade *)
Module SocketWitness.
Import Sockets SocketFacts.

(** The server of [st_one] with the read/write ring [rw_ring] set up for
    badge 0. *)
Definition st_rw0 : SockState := set_uring_servers st_one {[0 := rw_ring]}.

(** C3 fails: the first socket of a fresh server gets badge 0. *)
Lemma first_socket_badge_zero :
  fst (socket st_fresh AF_INET SOCK_STREAM 0) = Ok 0%N.
Proof. vm_compute. reflexivity. Qed.

(** C6 fails: two entries are drained but only one completion is
    produced, because the completion queue has room for one only and the
    result of [complete] is discarded. *)
Lemma process_iouring_drops_completion :
  process_iouring 0 1 demo_err_code st_full_ring 0 =
    Done (Ok tt, set_uring_servers st_one
                   {[0 := mkUring [] [mkUCqe 42 0; mkUCqe 1 (-5)] 2]}).
Proof. vm_compute. reflexivity. Qed.

Lemma send_recv_results_witness :
  exists s,
    sockets st_one !! 0%nat = Some (Some s) /\
    (can_send s = false -> send st_one 0 [Byte.x41] 0 = Done (Err WouldBlock, st_one)) /\
    (can_send s = true -> exists n s',
       send_slice s [Byte.x41] = Some (n, s') /\
       send st_one 0 [Byte.x41] 0 =
         Done (Ok n, set_sockets st_one (<[0%nat := Some s']> (sockets st_one)))) /\
    (can_recv s = false -> recv st_one 0 [Byte.x00] 0 = Done (Err WouldBlock, [Byte.x00], st_one)) /\
    (can_recv s = true -> exists n buf' s',
       recv_slice s [Byte.x00] = Some (n, buf', s') /\
       recv st_one 0 [Byte.x00] 0 =
         Done (Ok n, buf', set_sockets st_one (<[0%nat := Some s']> (sockets st_one)))).
Proof.
  apply (send_recv_results 0 1 demo_err_code st_one 0 0 [Byte.x41] [Byte.x00] 0).
  - eapply sr_step; [apply (sr_init 0 1 demo_err_code demo_mem)|].
    eapply (ss_socket 0 1 demo_err_code _ AF_INET SOCK_STREAM 0). reflexivity.
  - vm_compute. reflexivity.
Defined.

Lemma process_iouring_completes_all_witness :
  exists cs st1,
    served_completions 0 1 demo_err_code
      (set_uring_servers st_rw0 (delete 0 (uring_servers st_rw0))) 0 (ur_sq rw_ring)
      = Done (cs, st1) /\
    length cs = length (ur_sq rw_ring) /\
    map ucqe_user_data cs = map usqe_user_data (ur_sq rw_ring) /\
    process_iouring 0 1 demo_err_code st_rw0 0 =
      Done (Ok tt, set_uring_servers st1
                     (<[0 := mkUring [] (ur_cq rw_ring ++
                                         take (ur_cq_cap rw_ring - length (ur_cq rw_ring)) cs)
                                     (ur_cq_cap rw_ring)]> (uring_servers st1))) /\
    ((length (ur_cq rw_ring) + length (ur_sq rw_ring) <= ur_cq_cap rw_ring)%nat ->
     take (ur_cq_cap rw_ring - length (ur_cq rw_ring)) cs = cs).
Proof.
  apply (process_iouring_completes_all 0 1 demo_err_code st_rw0 0 rw_ring).
  - eapply sr_step; [eapply sr_step|].
    + apply (sr_init 0 1 demo_err_code demo_mem).
    + eapply (ss_socket 0 1 demo_err_code _ AF_INET SOCK_STREAM 0). reflexivity.
    + eapply (ss_setup_iouring 0 1 demo_err_code _ 0 (Ok tt) rw_ring). vm_compute. reflexivity.
  - vm_compute. reflexivity.
Defined.

Lemma close_always_ok_idempotent_witness :
  fst (close st_one 5) = Ok tt /\
  socket_map (snd (close st_one 5)) = delete 5 (socket_map st_one) /\
  close (snd (close st_one 5)) 5 = (Ok tt, snd (close st_one 5)) /\
  (socket_map st_one !! 5 = None ->
     close st_one 5 = (Ok tt, st_one) /\
     bind st_one 5 [] = (Err NotFound, st_one) /\
     send st_one 5 [] 0 = Done (Err NotFound, st_one) /\
     recv st_one 5 [] 0 = Done (Err NotFound, [], st_one) /\
     setup_iouring st_one 5 (Ok tt) rw_ring = (Err NotFound, st_one)).
Proof. apply close_always_ok_idempotent. Defined.

End SocketWitness.

(** ** Facts about the probe pipeline *)
Module ProbeFacts.
Import Probe.

Definition probe_inv (st : ProbeState) : Prop :=
  forall hw, (hw ∈ probed_hardware st -> ifaces_for hw st = 1%nat) /\
             (hw ∉ probed_hardware st -> ifaces_for hw st = 0%nat).

Lemma probe_inv_init b : probe_inv (init_probe_state b).
Proof.
  intros hw. unfold ifaces_for. simpl.
  split; [set_solver | intros _].
  reflexivity.
Qed.

Lemma probe_inv_set_pending st q : probe_inv st -> probe_inv (set_pending_devices st q).
Proof. done. Qed.

Lemma probe_inv_sync env st r st' :
  probe_inv st -> sync_devices env st = (r, st') -> probe_inv st'.
Proof.
  unfold sync_devices. intros Hi Hs. case_match; simplify_eq; [|done].
  by apply probe_inv_set_pending.
Qed.

Lemma ifaces_for_push hw h ic st q s b :
  ifaces_for hw (mkProbeState q s (interfaces st ++ [mkIface ic (Some h)]) b)
  = (ifaces_for hw st + if decide (Some h = Some hw) then 1 else 0)%nat.
Proof.
  unfold ifaces_for. simpl. rewrite filter_app, length_app. f_equal.
  case_decide.
  - rewrite filter_cons_True; done.
  - rewrite filter_cons_False; done.
Qed.

Lemma probe_inv_probe env st name h desc r st' :
  probe_inv st -> h ∉ probed_hardware st ->
  probe env st name h desc = (r, st') ->
  probe_inv st' /\ pending_devices st' = pending_devices st.
Proof.
  unfold probe. intros Hi Hh Hp.
  repeat case_match; simplify_eq; try done.
  split; [|done]. intros hw. rewrite ifaces_for_push. simpl.
  destruct (Hi hw) as [Hin Hout].
  destruct (decide (hw = h)) as [->|Hne].
  - rewrite decide_True by done. split; [intros _ | set_solver]. rewrite Hout; done.
  - rewrite decide_False by congruence. rewrite Nat.add_0_r.
    split; intros Hm; [apply Hin | apply Hout]; set_solver.
Qed.

Lemma probe_inv_loop fuel env st r st' :
  probe_inv st -> process_pending_probes_loop fuel env st = (r, st') -> probe_inv st'.
Proof.
  revert st. induction fuel as [|fuel IH]; intros st Hi Hl; simpl in Hl.
  - by simplify_eq.
  - destruct (pending_devices st) as [|name rest]; [by simplify_eq|].
    destruct (env_logic_desc env name) as [[hw desc]|e]; [|by simplify_eq; apply probe_inv_set_pending].
    destruct (_ && _) eqn:Hc.
    + apply andb_true_iff in Hc as [_ Hc]. apply negb_true_iff, bool_decide_eq_false in Hc.
      destruct (env_alloc_slot env); [|by simplify_eq; apply probe_inv_set_pending].
      destruct (env_alloc_logic env name); [|by simplify_eq; apply probe_inv_set_pending].
      destruct (probe env (set_pending_devices st rest) name hw desc) as [[]  st2] eqn:Hp.
      * eapply IH; [|exact Hl].
        eapply (probe_inv_probe env (set_pending_devices st rest)); [by apply probe_inv_set_pending|done|exact Hp].
      * simplify_eq.
        eapply (probe_inv_probe env (set_pending_devices st rest)); [by apply probe_inv_set_pending|done|exact Hp].
    + eapply IH; [by apply probe_inv_set_pending|exact Hl].
Qed.

Lemma probe_inv_step st st' : probe_inv st -> probe_step st st' -> probe_inv st'.
Proof.
  intros Hi Hs. destruct Hs as [env st0 r st1 H|env st0 r st1 H].
  - by eapply probe_inv_sync.
  - by eapply probe_inv_loop.
Qed.

Lemma probe_reachable_inv st : probe_reachable st -> probe_inv st.
Proof.
  induction 1 as [b|st st' _ IH Hs]; [apply probe_inv_init|].
  by eapply probe_inv_step.
Qed.

(** C7 (amended). In every state the probe pipeline can reach, each
    hardware ID has at most one interface, and it has exactly one
    precisely when its ID is in the probed set, i.e. once a probe of it
    has succeeded. Names resolving to an already-probed ID are skipped. *)
Theorem one_interface_per_hw st hw :
  probe_reachable st ->
  (ifaces_for hw st <= 1)%nat /\ (ifaces_for hw st = 1%nat <-> hw ∈ probed_hardware st).
Proof.
  intros Hr. destruct (probe_reachable_inv st Hr hw) as [H1 H0].
  destruct (decide (hw ∈ probed_hardware st)) as [Hm|Hm].
  - rewrite (H1 Hm). split; [lia | tauto].
  - rewrite (H0 Hm). split; [lia | split; [discriminate | tauto]].
Qed.

End ProbeFacts.

Module ProbeWitness.
Import Probe.

(** The queue after the initial device sync: "eth0" (hardware 7) pending. *)
Definition st_queued : ProbeState := mkProbeState ["eth0"%string] ∅ [mkIface VLoopback None] true.

(** C7 counterexample. "eth0" (hardware 7) goes through two probe passes,
    separated by a device sync that queues it again; the driver refuses
    the ring setup both times, so both probes fail and no interface exists
    for hardware 7. *)
Lemma probe_twice_no_interface :
  let st1 := process_pending_probes env_ring_fails st_queued in
  let st2 := sync_devices env_ring_fails (snd st1) in
  let st3 := process_pending_probes env_ring_fails (snd st2) in
  fst st1 = Err InternalError /\ pending_devices (snd st2) = ["eth0"%string] /\
  fst st3 = Err InternalError /\ ifaces_for 7 (snd st3) = 0%nat.
Proof. vm_compute. auto. Qed.

(** The same device probed successfully gives one interface, and a second
    pass skips it. *)
Lemma one_interface_per_hw_witness :
  let st1 := snd (process_pending_probes env_ok st_queued) in
  let st2 := snd (sync_devices env_ok st1) in
  let st3 := snd (process_pending_probes env_ok st2) in
  probe_reachable st3 /\
  ((ifaces_for 7 st3 <= 1)%nat /\ (ifaces_for 7 st3 = 1%nat <-> 7 ∈ probed_hardware st3)) /\
  ifaces_for 7 st3 = 1%nat.
Proof.
  intros st1 st2 st3.
  assert (Hr : probe_reachable st3).
  { eapply pr_step; [eapply pr_step; [eapply pr_step; [eapply pr_step|]|]|].
    - exact (pr_init true).
    - eapply (ps_sync env_ok). reflexivity.
    - eapply (ps_probe env_ok). reflexivity.
    - eapply (ps_sync env_ok). reflexivity.
    - eapply (ps_probe env_ok). reflexivity. }
  split; [exact Hr|]. split; [exact (ProbeFacts.one_interface_per_hw st3 7 Hr)|].
  vm_compute. reflexivity.
Defined.

End ProbeWitness.

(** ** Facts about the service start *)
Module RunFacts.
Import Run.

(** C8. [GopherServer::run] does not check the endpoint and reply
    capabilities: on a fresh server (both null, [listen] never called)
    it reports Running and enters the event loop, where every failing
    [recv] is logged and skipped. Only the [GopherManager] draft returns
    [NotInitialized] there. *)
Theorem run_before_listen_enters_loop :
  server_run (Ok tt) new_server = EnteredLoop (mkRunState null null null true) /\
  server_loop_recv_error (mkRunState null null null true) InvalidArgs
    = mkRunState null null null true /\
  manager_run new_server = Returned (Err NotInitialized).
Proof. repeat split. Qed.

End RunFacts.

(** ** Further facts about the net device adapter *)
Module NetDevMore.
Import NetDev.

(** [receive] keeps the RX tag and the SHM view, submits at most one
    request (the 2048-byte RX read at SHM offset 0 with the RX tag) and
    consumes at most one completion, the head one. *)
Theorem receive_one_submit_one_completion ok d tok d' :
  receive ok d = Done (tok, d') ->
  rx_id d' = rx_id d /\ shm (client d') = shm (client d) /\
  (sq (client d') = sq (client d) \/
   sq (client d') = sq (client d) ++ [mkSqe OP_READ 0 2048 (rx_id d)]) /\
  (cq (client d') = cq (client d) \/ exists e, cq (client d) = e :: cq (client d')).
Proof.
  unfold receive, submit_recv, peek_cqe, set_pending, set_client.
  intros H. destruct d as [[v q c] p id]; simpl in *.
  destruct v as [v|]; [destruct p, ok|]; simpl in *;
    repeat (case_match; simpl in *; simplify_eq/=); simplify_eq/=;
    repeat split; eauto.
Qed.

(** While an RX is pending, a completion at the head of the queue that is
    not the RX one (a TX completion, say) is taken off and dropped:
    [receive] returns nothing and the RX stays pending. *)
Theorem receive_drops_foreign_completion ok d e rest :
  rx_pending d = true -> cq (client d) = e :: rest -> cqe_user_data e <> rx_id d ->
  receive ok d = Done (None, set_client d (mkClient (shm (client d)) (sq (client d)) rest)).
Proof.
  intros Hp Hq He. destruct d as [[v q c] p id]; simpl in *; subst p c.
  unfold receive, peek_cqe; simpl.
  assert (Hne : (cqe_user_data e =? id) = false) by (by apply N.eqb_neq).
  destruct v; simpl; by rewrite Hne.
Qed.

(** An RX completion with a result [<= 0] (a driver error or an empty
    read) clears the pending flag without a token; on an SHM view of at
    least 2048 bytes the next [receive] submits a fresh RX read. *)
Theorem receive_error_completion_resubmits d v res rest :
  rx_pending d = true -> shm (client d) = Some v -> 2048 <= shm_size v ->
  cq (client d) = mkCqe (rx_id d) res :: rest -> (res <= 0)%Z ->
  exists d1, receive true d = Done (None, d1) /\ rx_pending d1 = false /\
    exists tok d2, receive true d1 = Done (tok, d2) /\
      sq (client d2) = sq (client d) ++ [mkSqe OP_READ 0 2048 (rx_id d)].
Proof.
  intros Hp Hv Hbig Hq Hres. destruct d as [[v' q c] p id]; simpl in *. subst.
  apply N.leb_le in Hbig.
  unfold receive, peek_cqe; simpl. rewrite N.eqb_refl.
  destruct (Z.ltb_spec 0 res); [lia|].
  eexists; split; [reflexivity|]. split; [done|].
  unfold submit_recv; simpl. rewrite Hbig.
  destruct rest as [|e rest]; simpl.
  - by do 2 eexists.
  - destruct (cqe_user_data e =? id); [destruct (0 <? cqe_res e)%Z|]; by do 2 eexists.
Qed.

(** RX and TX use the same SHM bytes: on a device with an SHM view of at
    least 2048 bytes, no RX pending and no completion waiting, [receive]
    submits the RX read of
    [shm[0..2048]], and a TX token consumed next submits the frame from
    [shm[0..len]], overlapping the buffer the driver is about to fill. *)
Theorem rx_and_tx_share_offset_zero tx_ud d v len :
  shm (client d) = Some v -> rx_pending d = false -> cq (client d) = [] ->
  2048 <= shm_size v -> 0 < len <= shm_size v ->
  exists d1 d2,
    receive true d = Done (None, d1) /\ tx_consume true tx_ud len d1 = Done d2 /\
    sq (client d2) = sq (client d) ++ [mkSqe OP_READ 0 2048 (rx_id d); mkSqe OP_WRITE 0 len tx_ud] /\
    rx_pending d2 = true.
Proof.
  intros Hv Hp Hq Hbig Hlen. destruct d as [[v' q c] p id]; simpl in *. subst.
  apply N.leb_le in Hbig.
  unfold receive, submit_recv, peek_cqe; simpl. rewrite Hbig.
  eexists _, _; split; [reflexivity|].
  unfold tx_consume, send_packet; simpl.
  destruct (N.leb_spec len (shm_size v)); [|lia].
  split; [reflexivity|]. simpl. by rewrite <- app_assoc.
Qed.

End NetDevMore.

Module NetDevMoreWitness.
Import NetDev.

Definition dev_rx_pending_tx_done : GlendaNetDevice :=
  mkDev (mkClient (Some demo_shm) [mkSqe OP_READ 0 2048 256] [mkCqe 7 1500]) true 256.
Definition dev_rx_failed : GlendaNetDevice :=
  mkDev (mkClient (Some demo_shm) [] [mkCqe 256 (-5)]) true 256.
Definition dev_idle : GlendaNetDevice := mkDev (mkClient (Some demo_shm) [] []) false 256.

Lemma receive_one_submit_one_completion_witness :
  exists tok d', receive true demo_dev = Done (tok, d') /\
    rx_id d' = rx_id demo_dev /\ shm (client d') = shm (client demo_dev) /\
    (sq (client d') = sq (client demo_dev) \/
     sq (client d') = sq (client demo_dev) ++ [mkSqe OP_READ 0 2048 (rx_id demo_dev)]) /\
    (cq (client d') = cq (client demo_dev) \/ exists e, cq (client demo_dev) = e :: cq (client d')).
Proof.
  do 2 eexists. split; [reflexivity|].
  eapply (NetDevMore.receive_one_submit_one_completion true). reflexivity.
Defined.

Lemma receive_drops_foreign_completion_witness :
  receive false dev_rx_pending_tx_done =
    Done (None, set_client dev_rx_pending_tx_done
                  (mkClient (Some demo_shm) [mkSqe OP_READ 0 2048 256] [])).
Proof.
  apply (NetDevMore.receive_drops_foreign_completion false dev_rx_pending_tx_done (mkCqe 7 1500) []);
    [reflexivity | reflexivity | simpl; discriminate].
Defined.

Lemma receive_error_completion_resubmits_witness :
  exists d1, receive true dev_rx_failed = Done (None, d1) /\ rx_pending d1 = false /\
    exists tok d2, receive true d1 = Done (tok, d2) /\
      sq (client d2) = [mkSqe OP_READ 0 2048 256].
Proof.
  apply (NetDevMore.receive_error_completion_resubmits dev_rx_failed demo_shm (-5) []);
    [reflexivity | reflexivity | vm_compute; discriminate | reflexivity | lia].
Defined.

Lemma rx_and_tx_share_offset_zero_witness :
  exists d1 d2,
    receive true dev_idle = Done (None, d1) /\ tx_consume true 1 1514 d1 = Done d2 /\
    sq (client d2) = [mkSqe OP_READ 0 2048 256; mkSqe OP_WRITE 0 1514 1] /\
    rx_pending d2 = true.
Proof.
  apply (NetDevMore.rx_and_tx_share_offset_zero 1 dev_idle demo_shm 1514);
    [reflexivity | reflexivity | reflexivity | vm_compute; discriminate | simpl; lia].
Defined.

End NetDevMoreWitness.

(** ** Further facts about the socket table and the uring servers *)
Module SocketMore.
Import Sockets.

Section More.
Context `{T : TcpStack}.
Variables IOURING_OP_READ IOURING_OP_WRITE : N.
Variable err_code : Error -> Z.


(** What [send], [recv] and the uring loop may change: the sockets' slots
    in place (never their number, never emptying one) and the memory. *)
Definition same_tables (st st' : SockState) : Prop :=
  socket_map st' = socket_map st /\ uring_servers st' = uring_servers st /\
  length (sockets st') = length (sockets st) /\
  (Forall (fun o => is_Some o) (sockets st) -> Forall (fun o => is_Some o) (sockets st')).

Lemma same_tables_refl st : same_tables st st.
Proof. repeat split; auto. Qed.

Lemma same_tables_trans st1 st2 st3 :
  same_tables st1 st2 -> same_tables st2 st3 -> same_tables st1 st3.
Proof. intros (?&?&?&?) (?&?&?&?). repeat split; auto; congruence. Qed.

Lemma same_tables_update st h s' :
  same_tables st (set_sockets st (<[h := Some s']> (sockets st))).
Proof.
  repeat split; simpl; [by rewrite length_insert|].
  intros Hf. apply Forall_insert; [done | eauto].
Qed.

Lemma send_tables st b data fl r st' :
  send st b data fl = Done (r, st') -> same_tables st st' /\ mem st' = mem st.
Proof.
  unfold send, get_mut. intros H.
  repeat (case_match; simplify_eq/=); simplify_eq/=;
    split; auto using same_tables_refl, same_tables_update.
Qed.

Lemma recv_tables st b buf fl r buf' st' :
  recv st b buf fl = Done (r, buf', st') -> same_tables st st' /\ mem st' = mem st.
Proof.
  unfold recv, get_mut. intros H.
  repeat (case_match; simplify_eq/=); simplify_eq/=;
    split; auto using same_tables_refl, same_tables_update.
Qed.

Lemma process_entry_tables st b u sqe st' u' :
  Sockets.process_entry IOURING_OP_READ IOURING_OP_WRITE err_code st b u sqe = Done (st', u') -> same_tables st st'.
Proof.
  unfold process_entry. intros H.
  destruct (usqe_opcode sqe =? IOURING_OP_READ).
  - destruct (recv _ _ _ _) as [[[r buf'] st1]|] eqn:Hr; [|done].
    apply recv_tables in Hr as [Ht _].
    destruct r; simplify_eq; exact Ht.
  - destruct (usqe_opcode sqe =? IOURING_OP_WRITE).
    + destruct (send _ _ _ _) as [[r st1]|] eqn:Hs; [|done].
      apply send_tables in Hs as [Ht _].
      destruct r; simplify_eq; exact Ht.
    + simplify_eq. apply same_tables_refl.
Qed.

Lemma process_loop_tables fuel st b u st' u' :
  Sockets.process_loop IOURING_OP_READ IOURING_OP_WRITE err_code fuel st b u = Done (st', u') -> same_tables st st'.
Proof.
  revert st u. induction fuel as [|fuel IH]; intros st u H; simpl in H.
  - simplify_eq. apply same_tables_refl.
  - destruct (next_request u) as [[sqe u1]|]; [|simplify_eq; apply same_tables_refl].
    destruct (Sockets.process_entry IOURING_OP_READ IOURING_OP_WRITE err_code st b u1 sqe) as [[st1 u2]|] eqn:He; [|done].
    eapply same_tables_trans; [eapply process_entry_tables; exact He | eapply IH; exact H].
Qed.

Lemma process_iouring_tables st b r st' :
  Sockets.process_iouring IOURING_OP_READ IOURING_OP_WRITE err_code st b = Done (r, st') ->
  socket_map st' = socket_map st /\ length (sockets st') = length (sockets st) /\
  (Forall (fun o => is_Some o) (sockets st) -> Forall (fun o => is_Some o) (sockets st')) /\
  (forall b', b' <> b -> uring_servers st' !! b' = uring_servers st !! b').
Proof.
  unfold Sockets.process_iouring. intros H.
  destruct (uring_servers st !! b) as [u|]; [|simplify_eq; repeat split; auto].
  destruct (Sockets.process_loop IOURING_OP_READ IOURING_OP_WRITE err_code _ _ _ _) as [[st1 u1]|] eqn:Hl; [|done]. simplify_eq/=.
  destruct (process_loop_tables _ _ _ _ _ _ Hl) as (Hm & Hu & Hlen & Hf); simpl in *.
  repeat split; auto. intros b' Hne.
  rewrite lookup_insert_ne by congruence. rewrite Hu. by apply lookup_delete_ne.
Qed.

(** The shape of the socket set on reachable states: every slot holds a
    socket ([close] never frees one), and every badge of the table is the
    index of its slot. *)
Definition slots_full (st : SockState) : Prop :=
  Forall (fun o => is_Some o) (sockets st) /\
  forall b h, socket_map st !! b = Some h -> b = N.of_nat h /\ (h < length (sockets st))%nat.

Lemma first_free_full (l : list (option Sock)) :
  Forall (fun o => is_Some o) l -> first_free l = None.
Proof.
  induction 1 as [|o l [s ->] _ IH]; [done|]. simpl. by rewrite IH.
Qed.

Lemma slots_full_step st st' : slots_full st -> sock_step IOURING_OP_READ IOURING_OP_WRITE err_code st st' -> slots_full st'.
Proof.
  intros [Hf Hm] Hs; destruct Hs as
    [st d ty p r st' H|st b a r st' H|st b k r st' H|st b data r st' H
    |st b buf r buf' st' H|st b r st' H|st b mp ring r st' H|st b r st' H|st urings m].
  - unfold socket, socketset_add in H. rewrite (first_free_full _ Hf) in H.
    destruct (negb _); [by simplify_eq|]. destruct (_ =? _)%Z; [|by simplify_eq].
    simplify_eq/=. split; [apply Forall_app; split; [done | repeat constructor; eauto]|].
    intros b h Hb. simpl in *. rewrite length_app; simpl.
    destruct (decide (b = N.of_nat (length (sockets st)))) as [->|Hne].
    + rewrite lookup_insert_eq in Hb. injection Hb as <-. split; [done | lia].
    + rewrite lookup_insert_ne in Hb by done. destruct (Hm b h Hb). split; [done | lia].
  - unfold bind in H. by case_match; simplify_eq.
  - unfold listen in H. by case_match; simplify_eq.
  - apply send_tables in H as [(Hm' & _ & Hl & Hf') _]. split; [auto|].
    intros b' h Hb. rewrite Hm' in Hb. rewrite Hl. auto.
  - apply recv_tables in H as [(Hm' & _ & Hl & Hf') _]. split; [auto|].
    intros b' h Hb. rewrite Hm' in Hb. rewrite Hl. auto.
  - unfold close in H; simplify_eq/=. split; [done|].
    intros b' h Hb. simpl in Hb. apply lookup_delete_Some in Hb as [_ Hb]. auto.
  - unfold setup_iouring in H. by repeat case_match; simplify_eq.
  - destruct (process_iouring_tables _ _ _ _ H) as (Hm' & Hl & Hf' & _).
    split; [auto|]. intros b' h Hb. rewrite Hm' in Hb. rewrite Hl. auto.
  - by split.
Qed.

Lemma slots_full_reachable st : Sockets.sock_reachable IOURING_OP_READ IOURING_OP_WRITE err_code st -> slots_full st.
Proof.
  induction 1 as [m|st st' _ IH Hs].
  - split; [constructor|]. intros b h Hb. simpl in Hb. by rewrite lookup_empty in Hb.
  - eapply slots_full_step; eauto.
Qed.

(** Badges are never reused: on every reachable state, [socket] puts the
    new socket in a new slot at the end of the set (closed sockets keep
    their slots) and returns as badge the number of sockets created so far,
    a badge absent from the socket table. *)
Theorem socket_badge_is_fresh st p :
  Sockets.sock_reachable IOURING_OP_READ IOURING_OP_WRITE err_code st ->
  exists st',
    socket st AF_INET SOCK_STREAM p = (Ok (N.of_nat (length (sockets st))), st') /\
    socket_map st !! N.of_nat (length (sockets st)) = None /\
    sockets st' = sockets st ++ [Some (tcp_new 4096 4096)].
Proof.
  intros Hr. destruct (slots_full_reachable st Hr) as [Hf Hm].
  unfold socket, socketset_add. rewrite (first_free_full _ Hf). simpl.
  eexists; split; [reflexivity|]. split; [|done].
  destruct (socket_map st !! N.of_nat (length (sockets st))) as [h|] eqn:Hb; [|done].
  destruct (Hm _ _ Hb) as [Heq Hlt]. apply Nat2N.inj in Heq. lia.
Qed.

(** [process_iouring] only changes the badge's own uring server, the
    sockets' state and the memory: the socket table, the number of sockets
    and every other badge's uring server stay as they were. *)
Theorem process_iouring_frame st b r st' :
  Sockets.process_iouring IOURING_OP_READ IOURING_OP_WRITE err_code st b = Done (r, st') ->
  socket_map st' = socket_map st /\ length (sockets st') = length (sockets st) /\
  (forall b', b' <> b -> uring_servers st' !! b' = uring_servers st !! b').
Proof.
  intros H. destruct (process_iouring_tables _ _ _ _ H) as (? & ? & _ & ?). auto.
Qed.

(** Without a uring server for the badge, [process_iouring] returns
    [NotFound] and changes nothing; on a uring server with no pending
    entry it returns [Ok] and changes nothing either (the server taken out
    of the table is put back unchanged). *)
Theorem process_iouring_idle st b :
  (uring_servers st !! b = None -> Sockets.process_iouring IOURING_OP_READ IOURING_OP_WRITE err_code st b = Done (Err NotFound, st)) /\
  (forall u, uring_servers st !! b = Some u -> ur_sq u = [] ->
   Sockets.process_iouring IOURING_OP_READ IOURING_OP_WRITE err_code st b = Done (Ok tt, st)).
Proof.
  split.
  - intros H. unfold Sockets.process_iouring. by rewrite H.
  - intros u Hu Hq. unfold Sockets.process_iouring. rewrite Hu, Hq. simpl.
    rewrite insert_delete_eq, insert_id by done. by destruct st.
Qed.

Lemma write_read_mem m a len x :
  write_mem m a (read_mem m a len) x = m x.
Proof.
  unfold write_mem, read_mem. rewrite length_map, length_seq, N2Nat.id.
  destruct (N.leb_spec a x), (N.ltb_spec x (a + len)); simpl; try done.
  rewrite nth_lookup, list_lookup_fmap, lookup_seq_lt by lia. simpl.
  f_equal. lia.
Qed.

(** The completion a uring entry gets once its badge has left the socket
    table. *)
Definition closed_completion (sqe : USqe) : UCqe :=
  mkUCqe (usqe_user_data sqe)
    (if N.eqb (usqe_opcode sqe) IOURING_OP_READ || N.eqb (usqe_opcode sqe) IOURING_OP_WRITE
     then (- err_code NotFound)%Z else (- err_code NotSupported)%Z).

Lemma process_loop_closed (l : list USqe) st b u :
  socket_map st !! b = None -> ur_sq u = l ->
  exists st',
    Sockets.process_loop IOURING_OP_READ IOURING_OP_WRITE err_code (length l) st b u =
      Done (st', mkUring [] (ur_cq u ++ take (ur_cq_cap u - length (ur_cq u))
                                            (map closed_completion l)) (ur_cq_cap u)) /\
    socket_map st' = socket_map st /\ sockets st' = sockets st /\
    uring_servers st' = uring_servers st /\ forall x, mem st' x = mem st x.
Proof.
  revert st u. induction l as [|sqe l IH]; intros st u Hb Hq; simpl.
  - exists st. rewrite take_nil, app_nil_r. destruct u; simpl in *; subst. by repeat split.
  - unfold next_request. rewrite Hq.
    set (u1 := mkUring l (ur_cq u) (ur_cq_cap u)).
    assert (He : exists st1, Sockets.process_entry IOURING_OP_READ IOURING_OP_WRITE err_code st b u1 sqe =
                   Done (st1, complete_ignore u1 (usqe_user_data sqe) (ucqe_res (closed_completion sqe))) /\
                 socket_map st1 = socket_map st /\ sockets st1 = sockets st /\
                 uring_servers st1 = uring_servers st /\ forall x, mem st1 x = mem st x).
    { unfold Sockets.process_entry, closed_completion, recv, send. simpl. rewrite Hb.
      destruct (usqe_opcode sqe =? IOURING_OP_READ); simpl.
      - eexists; split; [reflexivity|]. repeat split; simpl; auto using write_read_mem.
      - destruct (usqe_opcode sqe =? IOURING_OP_WRITE); simpl;
          (eexists; split; [reflexivity|]); by repeat split. }
    destruct He as (st1 & He & Hm1 & Hs1 & Hu1 & Hmem1). rewrite He.
    rewrite SocketFacts.complete_ignore_take.
    destruct (IH st1 (mkUring l (ur_cq u ++ take (ur_cq_cap u - length (ur_cq u))
                                   [mkUCqe (usqe_user_data sqe) (ucqe_res (closed_completion sqe))])
                     (ur_cq_cap u)))
      as (st' & Hl & Hm' & Hs' & Hu' & Hmem'); [congruence | done |].
    exists st'. split.
    + etransitivity; [exact Hl|]. simpl. do 3 f_equal.
      rewrite SocketFacts.take_room_step. do 3 f_equal.
    + repeat split; try congruence. all: intros x; by rewrite Hmem', Hmem1.
Qed.

(** [close] leaves the badge's uring server in place: a later
    [process_iouring] on the closed badge still drains the ring, every
    READ and WRITE entry completing with the negated [NotFound] (and any
    other opcode with the negated [NotSupported]), these completions being
    appended as far as the completion queue has room, and the client's
    buffers being left as they were. *)
Theorem closed_badge_ring_still_served st b u :
  uring_servers st !! b = Some u ->
  exists st',
    Sockets.process_iouring IOURING_OP_READ IOURING_OP_WRITE err_code (snd (close st b)) b = Done (Ok tt, st') /\
    uring_servers st' !! b =
      Some (mkUring [] (ur_cq u ++ take (ur_cq_cap u - length (ur_cq u))
                                       (map closed_completion (ur_sq u))) (ur_cq_cap u)) /\
    socket_map st' = delete b (socket_map st) /\ sockets st' = sockets st /\
    forall x, mem st' x = mem st x.
Proof.
  intros Hu. unfold Sockets.process_iouring, close; simpl. rewrite Hu.
  destruct (process_loop_closed (ur_sq u)
              (set_uring_servers (set_socket_map st (delete b (socket_map st)))
                 (delete b (uring_servers st))) b u)
    as (st' & Hl & Hm & Hs & _ & Hmem); simpl; [apply lookup_delete_eq | done |].
  rewrite Hl. eexists; split; [reflexivity|]. simpl.
  split; [apply lookup_insert_eq|]. auto.
Qed.

End More.
End SocketMore.

Module SocketMoreWitness.
Import Sockets.

(** The server after one [socket] call and a [close] of its badge 0. *)
Definition st_closed : SockState := snd (close st_one 0).

(** The server of [st_one] with the read/write ring of [rw_ring]
    registered for badge 0. *)
Definition st_rw : SockState := set_uring_servers st_one {[0 := rw_ring]}.

Lemma socket_badge_is_fresh_witness :
  sock_reachable 0 1 demo_err_code st_closed /\
  exists st',
    socket st_closed AF_INET SOCK_STREAM 0 = (Ok (N.of_nat (length (sockets st_closed))), st') /\
    socket_map st_closed !! N.of_nat (length (sockets st_closed)) = None /\
    sockets st' = sockets st_closed ++ [Some (tcp_new 4096 4096)].
Proof.
  assert (Hr : sock_reachable 0 1 demo_err_code st_closed).
  { eapply sr_step; [eapply sr_step; [apply (sr_init 0 1 demo_err_code demo_mem)|]|].
    - eapply (ss_socket 0 1 demo_err_code _ AF_INET SOCK_STREAM 0). reflexivity.
    - eapply (ss_close 0 1 demo_err_code _ 0). reflexivity. }
  split; [exact Hr|]. exact (SocketMore.socket_badge_is_fresh 0 1 demo_err_code st_closed 0 Hr).
Defined.

Lemma process_iouring_frame_witness :
  exists r st',
    process_iouring 0 1 demo_err_code st_full_ring 0 = Done (r, st') /\
    socket_map st' = socket_map st_full_ring /\
    length (sockets st') = length (sockets st_full_ring) /\
    (forall b', b' <> 0 -> uring_servers st' !! b' = uring_servers st_full_ring !! b').
Proof.
  exists (Ok tt), (set_uring_servers st_one {[0 := mkUring [] [mkUCqe 42 0; mkUCqe 1 (-5)] 2]}).
  split; [vm_compute; reflexivity|].
  apply (SocketMore.process_iouring_frame 0 1 demo_err_code _ _ (Ok tt)). vm_compute. reflexivity.
Defined.

Lemma closed_badge_ring_still_served_witness :
  exists st',
    process_iouring 0 1 demo_err_code (snd (close st_full_ring 0)) 0 = Done (Ok tt, st') /\
    uring_servers st' !! 0 =
      Some (mkUring [] (ur_cq full_ring ++
                        take (ur_cq_cap full_ring - length (ur_cq full_ring))
                             (map (SocketMore.closed_completion 0 1 demo_err_code) (ur_sq full_ring)))
                    (ur_cq_cap full_ring)) /\
    socket_map st' = delete 0 (socket_map st_full_ring) /\ sockets st' = sockets st_full_ring /\
    forall x, mem st' x = mem st_full_ring x.
Proof.
  apply SocketMore.closed_badge_ring_still_served. reflexivity.
Defined.

End SocketMoreWitness.

(** ** Facts about request dispatch and replies *)
Module DispatchFacts.
Import Sockets Dispatch.

Section Facts.
Context `{T : TcpStack}.
Variable err_usize : Error -> N.

Definition err_reply (u : Utcb) (e : Error) : LoopReply :=
  Reply (mkUtcb TagErr (err_usize e) (u_size u) (u_buf u)).

(** A SEND on a socket that cannot send, or a RECV on one that cannot
    receive, fails with [WouldBlock], which the loop treats like a handled
    notification: the caller gets no reply at all. *)
Theorem wouldblock_gets_no_reply st b h s data u :
  socket_map st !! b = Some h -> sockets st !! h = Some (Some s) ->
  (can_send s = false -> serve err_usize (ReqSend data) st b u = Done (NoReply, st)) /\
  (can_recv s = false -> serve err_usize ReqRecv st b u = Done (NoReply, st)).
Proof.
  intros Hb Hs. unfold serve, dispatch_arm, send, recv, get_mut.
  rewrite Hb, Hs. split; intros Hc; by rewrite Hc.
Qed.

(** Error replies: CONNECT is always answered with an error reply
    carrying [NotSupported]; BIND, SEND and RECV on a badge absent from
    the socket table are answered with an error reply carrying
    [NotFound]; BIND on a badge of the table is answered with the OK tag. *)
Theorem error_replies st b u addr data :
  serve err_usize (ReqConnect addr) st b u = Done (err_reply u NotSupported, st) /\
  (socket_map st !! b = None ->
   serve err_usize (ReqBind addr) st b u = Done (err_reply u NotFound, st) /\
   serve err_usize (ReqSend data) st b u = Done (err_reply u NotFound, st) /\
   serve err_usize ReqRecv st b u = Done (err_reply u NotFound, st)) /\
  (forall h, socket_map st !! b = Some h ->
   serve err_usize (ReqBind addr) st b u = Done (Reply (set_tag u TagOk), st)).
Proof.
  split; [done|]. split.
  - intros Hb. unfold serve, dispatch_arm, bind, send, recv. by rewrite Hb.
  - intros h Hb. unfold serve, dispatch_arm, bind. by rewrite Hb.
Qed.

(** Successful transfers are answered with the OK tag: SEND with the
    byte count accepted by the stack in message register 0; RECV with the
    received bytes copied to the front of the IPC buffer and the payload
    size set to their count. *)
Theorem transfer_replies st b h s u :
  socket_map st !! b = Some h -> sockets st !! h = Some (Some s) ->
  (forall data n s', can_send s = true -> send_slice s data = Some (n, s') ->
   serve err_usize (ReqSend data) st b u =
     Done (Reply (mkUtcb TagOk (N.of_nat n) (u_size u) (u_buf u)),
           set_sockets st (<[h := Some s']> (sockets st)))) /\
  (forall n buf s', can_recv s = true ->
   recv_slice s (repeat Byte.x00 2048) = Some (n, buf, s') ->
   (n <= 2048)%nat -> (n <= length (u_buf u))%nat ->
   serve err_usize ReqRecv st b u =
     Done (Reply (mkUtcb TagOk (u_mr0 u) n (take n buf ++ drop n (u_buf u))),
           set_sockets st (<[h := Some s']> (sockets st)))).
Proof.
  intros Hb Hs. unfold serve, dispatch_arm, send, recv, get_mut. rewrite Hb, Hs.
  split.
  - intros data n s' Hc Hsl. by rewrite Hc, Hsl.
  - intros n buf s' Hc Hrl Hn Hu. rewrite Hc, Hrl. simpl.
    apply Nat.leb_le in Hn, Hu. by rewrite Hn, Hu.
Qed.

End Facts.
End DispatchFacts.

Module DispatchWitness.
Import Sockets Dispatch.

(** A server whose only socket (badge 0) is connected, has two bytes to
    deliver and room to send. *)
Definition st_conn : SockState :=
  mkSockState {[0 := 0%nat]} [Some (mkToySock true [Byte.x41; Byte.x42] [] 4096 4096)]
              ∅ demo_mem.

Definition demo_err_usize (e : Error) : N := Z.to_N (demo_err_code e).

Lemma wouldblock_gets_no_reply_witness :
  serve demo_err_usize (ReqSend [Byte.x41]) st_one 0 utcb0 = Done (NoReply, st_one) /\
  serve demo_err_usize ReqRecv st_one 0 utcb0 = Done (NoReply, st_one).
Proof.
  destruct (DispatchFacts.wouldblock_gets_no_reply demo_err_usize st_one 0 0
              (mkToySock false [] [] 4096 4096) [Byte.x41] utcb0)
    as [Hs Hr]; [reflexivity | reflexivity |].
  split; [apply Hs | apply Hr]; reflexivity.
Defined.

Lemma transfer_replies_witness :
  serve demo_err_usize (ReqSend [Byte.x43]) st_conn 0 utcb0 =
    Done (Reply (mkUtcb TagOk 1 0 (u_buf utcb0)),
          set_sockets st_conn (<[0%nat := Some (mkToySock true [Byte.x41; Byte.x42]
                                                  [Byte.x43] 4096 4096)]> (sockets st_conn))) /\
  serve demo_err_usize ReqRecv st_conn 0 utcb0 =
    Done (Reply (mkUtcb TagOk 0 2 (take 2 (take 2 [Byte.x41; Byte.x42] ++ drop 2 (repeat Byte.x00 2048))
                                   ++ drop 2 (u_buf utcb0))),
          set_sockets st_conn (<[0%nat := Some (mkToySock true [] [] 4096 4096)]>
                                 (sockets st_conn))).
Proof.
  destruct (DispatchFacts.transfer_replies demo_err_usize st_conn 0 0
              (mkToySock true [Byte.x41; Byte.x42] [] 4096 4096) utcb0)
    as [Hs Hr]; [reflexivity | reflexivity |].
  split.
  - apply (Hs [Byte.x43] 1%nat (mkToySock true [Byte.x41; Byte.x42] [Byte.x43] 4096 4096));
      reflexivity.
  - apply (Hr 2%nat (take 2 [Byte.x41; Byte.x42] ++ drop 2 (repeat Byte.x00 2048))
              (mkToySock true [] [] 4096 4096));
      [reflexivity | reflexivity | lia | vm_compute; lia].
Defined.

End DispatchWitness.

(** ** Facts about the SHM pool size *)
Module InitFacts.
Import Init.

(** The global SHM pool is [buffer_size] rounded up to whole 4 KiB pages
    (the least page multiple not below it), as long as the rounding does
    not overflow [usize]; without a config it is 1 MiB, 256 pages. *)
Theorem shm_pool_page_rounded bs :
  bs + 4095 < 2 ^ 64 ->
  snd (shm_layout (Some bs)) = fst (shm_layout (Some bs)) * 4096 /\
  bs <= snd (shm_layout (Some bs)) < bs + 4096 /\
  snd (shm_layout (Some bs)) mod 4096 = 0 /\
  snd (shm_layout (Some bs)) < 2 ^ 64 /\
  shm_layout None = (256, 1048576).
Proof.
  intros Hb. unfold shm_layout; cbn [fst snd].
  pose proof (N.div_mod (bs + 4095) 4096 ltac:(lia)) as Hdm.
  pose proof (N.mod_lt (bs + 4095) 4096 ltac:(lia)) as Hlt.
  set (q := (bs + 4095) / 4096) in *. set (r := (bs + 4095) mod 4096) in *.
  split; [done|]. split; [lia|]. split; [|split; [lia | reflexivity]].
  by rewrite N.Div0.mod_mul.
Qed.

End InitFacts.

Module InitWitness.
Import Init.

Lemma shm_pool_page_rounded_witness :
  snd (shm_layout (Some 1500000)) = fst (shm_layout (Some 1500000)) * 4096 /\
  1500000 <= snd (shm_layout (Some 1500000)) < 1500000 + 4096 /\
  snd (shm_layout (Some 1500000)) mod 4096 = 0 /\
  snd (shm_layout (Some 1500000)) < 2 ^ 64 /\
  shm_layout None = (256, 1048576).
Proof. apply InitFacts.shm_pool_page_rounded. vm_compute. reflexivity. Defined.

End InitWitness.

(** ** Further facts about the probe pipeline *)
Module ProbeMore.
Import Probe.

Definition sync_step (q : list string) (n : string) : list string :=
  if bool_decide (n ∈ q) then q else q ++ [n].

Lemma sync_fold_shape names q :
  exists l, fold_left sync_step names q = q ++ l /\
    (NoDup q -> NoDup (q ++ l)) /\ forall n, n ∈ names -> n ∈ q ++ l.
Proof.
  revert q. induction names as [|n names IH]; intros q; simpl.
  - exists []. rewrite app_nil_r. split; [done|]. split; [done|]. intros n Hn. set_solver.
  - destruct (IH (sync_step q n)) as (l & Hf & Hnd & Hin).
    unfold sync_step in *. case_bool_decide as Hq.
    + exists l. split; [done|]. split; [done|]. intros m Hm.
      apply elem_of_cons in Hm as [->|Hm]; [set_solver | auto].
    + exists (n :: l). rewrite <- app_assoc in Hf, Hnd, Hin. simpl in *.
      split; [done|]. split.
      * intros Hq0. apply Hnd. apply NoDup_app. split; [done|]. split; [|apply NoDup_singleton].
        intros x Hx Hx'. apply list_elem_of_singleton in Hx'. subst. done.
      * intros m Hm. apply elem_of_cons in Hm as [->|Hm]; [set_solver | auto].
Qed.

(** [sync_devices] only appends to the queue of pending names: a failed
    query changes nothing, a successful one keeps the queue as it was and
    adds every queried name not already queued, without duplicates; the
    interfaces and the probed set are untouched. *)
Theorem sync_devices_appends env st r st' :
  sync_devices env st = (r, st') ->
  interfaces st' = interfaces st /\ probed_hardware st' = probed_hardware st /\
  (forall e, r = Err e -> st' = st) /\
  (forall names, env_query env = Ok names ->
   exists l, pending_devices st' = pending_devices st ++ l /\
     (NoDup (pending_devices st) -> NoDup (pending_devices st')) /\
     forall n, n ∈ names -> n ∈ pending_devices st').
Proof.
  unfold sync_devices. intros H.
  destruct (env_query env) as [names|e] eqn:Hq; simplify_eq/=.
  - split; [done|]. split; [done|]. split; [done|]. intros names' [= <-].
    destruct (sync_fold_shape names (pending_devices st)) as (l & Hf & Hnd & Hin).
    unfold sync_step in Hf, Hin. exists l. rewrite Hf. auto.
  - split; [done|]. split; [done|]. split; [done|]. done.
Qed.

Lemma probe_shape env st name hw desc r st' :
  probe env st name hw desc = (r, st') ->
  pending_devices st' = pending_devices st /\
  (exists l, interfaces st' = interfaces st ++ l /\
     Forall (fun ic => exists n h, ic = mkIface (VNet n) (Some h)) l) /\
  probed_hardware st ⊆ probed_hardware st' /\
  (forall e, r = Err e -> st' = st).
Proof.
  unfold probe. intros H. repeat case_match; simplify_eq/=;
    try (split; [done | split; [exists []; rewrite app_nil_r; split; [done | constructor] |
                               split; [done | done]]]).
  split; [done|]. split; [|split; [set_solver | done]].
  eexists; split; [reflexivity|]. repeat constructor. eauto.
Qed.

Lemma ppp_loop_shape fuel env st r st' :
  process_pending_probes_loop fuel env st = (r, st') ->
  (exists k, pending_devices st' = drop k (pending_devices st)) /\
  (exists l, interfaces st' = interfaces st ++ l /\
     Forall (fun ic => exists n h, ic = mkIface (VNet n) (Some h)) l) /\
  probed_hardware st ⊆ probed_hardware st' /\
  (r = Ok tt -> (length (pending_devices st) <= fuel)%nat -> pending_devices st' = []) /\
  (forall e, r = Err e -> exists k, (k < length (pending_devices st))%nat /\
                                    pending_devices st' = drop (S k) (pending_devices st)).
Proof.
  revert st. induction fuel as [|fuel IH]; intros st H; simpl in H.
  - simplify_eq. split; [exists 0%nat; done|].
    split; [exists []; rewrite app_nil_r; split; [done | constructor]|].
    split; [done|]. split; [intros _ Hl; by destruct (pending_devices st') as [|? ?]; [|simpl in Hl; lia]|].
    intros e [=].
  - destruct (pending_devices st) as [|name rest] eqn:Hp.
    + simplify_eq. rewrite Hp. split; [exists 0%nat; done|].
      split; [exists []; rewrite app_nil_r; split; [done | constructor]|].
      split; [done|]. split; [done|]. intros e [=].
    + set (st1 := set_pending_devices st rest) in *.
      assert (Hone : forall e, (Err e, st1) = (r, st') ->
        (exists k, pending_devices st' = drop k (name :: rest)) /\
        (exists l, interfaces st' = interfaces st ++ l /\
           Forall (fun ic => exists n h, ic = mkIface (VNet n) (Some h)) l) /\
        probed_hardware st ⊆ probed_hardware st' /\
        (r = Ok tt -> (length (name :: rest) <= S fuel)%nat -> pending_devices st' = []) /\
        (forall e, r = Err e -> exists k, (k < length (name :: rest))%nat /\
                                          pending_devices st' = drop (S k) (name :: rest))).
      { intros e [= <- <-]. split; [exists 1%nat; done|].
        split; [exists []; rewrite app_nil_r; split; [done | constructor]|].
        split; [done|]. split; [intros [=]|]. intros e' _. exists 0%nat. simpl. split; [lia | done]. }
      assert (Hrec : forall st2, pending_devices st2 = rest ->
        (exists l, interfaces st2 = interfaces st ++ l /\
           Forall (fun ic => exists n h, ic = mkIface (VNet n) (Some h)) l) ->
        probed_hardware st ⊆ probed_hardware st2 ->
        process_pending_probes_loop fuel env st2 = (r, st') ->
        (exists k, pending_devices st' = drop k (name :: rest)) /\
        (exists l, interfaces st' = interfaces st ++ l /\
           Forall (fun ic => exists n h, ic = mkIface (VNet n) (Some h)) l) /\
        probed_hardware st ⊆ probed_hardware st' /\
        (r = Ok tt -> (length (name :: rest) <= S fuel)%nat -> pending_devices st' = []) /\
        (forall e, r = Err e -> exists k, (k < length (name :: rest))%nat /\
                                          pending_devices st' = drop (S k) (name :: rest))).
      { intros st2 Hp2 [l2 [Hi2 Hf2]] Hs2 Hl.
        destruct (IH st2 Hl) as ([k Hk] & [l3 [Hi3 Hf3]] & Hs3 & Hok & Herr).
        rewrite Hp2 in Hk, Hok, Herr.
        split; [exists (S k); done|].
        split; [exists (l2 ++ l3); rewrite Hi3, Hi2, app_assoc; split; [done | by apply Forall_app]|].
        split; [set_solver|]. split.
        - intros Hr Hlen. apply Hok; [done | simpl in Hlen; lia].
        - intros e He. destruct (Herr e He) as [k' [Hk' Hd]]. exists (S k'). simpl. split; [lia | done]. }
      destruct (env_logic_desc env name) as [[hw desc]|e]; [|by eapply Hone].
      destruct (_ && _).
      * destruct (env_alloc_slot env); [|by eapply Hone].
        destruct (env_alloc_logic env name); [|by eapply Hone].
        destruct (probe env st1 name hw desc) as [[] st2] eqn:Hpr.
        -- destruct (probe_shape _ _ _ _ _ _ _ Hpr) as (Hp2 & [l2 [Hi2 Hf2]] & Hs2 & _).
           apply (Hrec st2); [done | exists l2; done | done | exact H].
        -- destruct (probe_shape _ _ _ _ _ _ _ Hpr) as (_ & _ & _ & Hsame).
           rewrite (Hsame e eq_refl) in H. by eapply Hone.
      * apply (Hrec st1); [done | exists []; rewrite app_nil_r; split; [done | constructor] | done | exact H].
Qed.

(** A probe pass either empties the queue of pending names, or stops at
    the first failing name, which is dropped from the queue (it is retried
    only after a device sync queues it again) while the names behind it
    stay queued. Interfaces are only appended, and the probed set only
    grows. *)
Theorem probe_pass_queue env st r st' :
  process_pending_probes env st = (r, st') ->
  (r = Ok tt -> pending_devices st' = []) /\
  (forall e, r = Err e -> exists k, (k < length (pending_devices st))%nat /\
                                    pending_devices st' = drop (S k) (pending_devices st)) /\
  (exists l, interfaces st' = interfaces st ++ l) /\
  probed_hardware st ⊆ probed_hardware st'.
Proof.
  unfold process_pending_probes. intros H.
  destruct (ppp_loop_shape _ _ _ _ _ H) as (_ & [l [Hi _]] & Hs & Hok & Herr).
  split; [intros Hr; by apply Hok|]. split; [done|]. split; [eauto | done].
Qed.

Lemma step_shape st st' :
  probe_step st st' ->
  (exists k, pending_devices st' = drop k (pending_devices st)) \/
  (exists l, pending_devices st' = pending_devices st ++ l /\
     (NoDup (pending_devices st) -> NoDup (pending_devices st'))).
Proof.
  intros [env s r s' H|env s r s' H].
  - right. destruct (sync_devices_appends _ _ _ _ H) as (_ & _ & Herr & Hok).
    destruct (env_query env) as [names|e] eqn:Hq.
    + destruct (Hok names eq_refl) as (l & Hl & Hnd & _). eauto.
    + unfold sync_devices in H. rewrite Hq in H. simplify_eq.
      exists []. rewrite app_nil_r. auto.
  - left. unfold process_pending_probes in H.
    by destruct (ppp_loop_shape _ _ _ _ _ H) as (Hk & _).
Qed.

(** The queue of pending names never holds a name twice. *)
Theorem pending_devices_nodup st :
  probe_reachable st -> NoDup (pending_devices st).
Proof.
  induction 1 as [b|st st' _ IH Hs]; [constructor|].
  destruct (step_shape _ _ Hs) as [[k Hk]|(l & _ & Hnd)]; [|auto].
  rewrite Hk. revert IH. generalize (pending_devices st). clear.
  induction k as [|k IHk]; intros q Hq; [done|].
  destruct q as [|x q]; [constructor|]. simpl. apply IHk. by apply NoDup_cons in Hq as [_ ?].
Qed.

(** The interface list always starts with the loopback set up by [init];
    every later entry is a net device created by [probe] for some
    hardware ID. *)
Theorem interfaces_loopback_first st :
  probe_reachable st ->
  exists rest, interfaces st = mkIface VLoopback None :: rest /\
    Forall (fun ic => exists n h, ic = mkIface (VNet n) (Some h)) rest.
Proof.
  induction 1 as [b|st st' _ IH Hs]; [exists []; split; [done | constructor]|].
  destruct IH as (rest & Hi & Hf).
  destruct Hs as [env s r s' H|env s r s' H].
  - destruct (sync_devices_appends _ _ _ _ H) as (Hi' & _). rewrite Hi', Hi. eauto.
  - unfold process_pending_probes in H.
    destruct (ppp_loop_shape _ _ _ _ _ H) as (_ & [l [Hl Hfl]] & _).
    exists (rest ++ l). rewrite Hl, Hi. split; [done | by apply Forall_app].
Qed.

End ProbeMore.

Module ProbeMoreWitness.
Import Probe.

(** A device manager that lists "eth0" twice and "eth1" once, both names
    resolving to hardware 7. *)
Definition env_dup : ProbeEnv :=
  mkEnv (Ok ["eth0"%string; "eth1"%string; "eth0"%string])
        (fun n => Ok (7, mkDesc n DevNet)) (Ok tt)
        (fun _ => Ok tt) (fun _ => Ok tt) (Ok tt) (fun _ => Ok tt).

Definition st_init : ProbeState := init_probe_state true.
Definition st_synced : ProbeState := snd (sync_devices env_dup st_init).
Definition st_probed : ProbeState := snd (process_pending_probes env_dup st_synced).

Lemma st_probed_reachable : probe_reachable st_probed.
Proof.
  eapply pr_step; [eapply pr_step; [exact (pr_init true)|]|].
  - eapply (ps_sync env_dup). reflexivity.
  - eapply (ps_probe env_dup). reflexivity.
Qed.

Lemma sync_devices_appends_witness :
  interfaces st_synced = interfaces st_init /\ probed_hardware st_synced = probed_hardware st_init /\
  (forall e, fst (sync_devices env_dup st_init) = Err e -> st_synced = st_init) /\
  (forall names, env_query env_dup = Ok names ->
   exists l, pending_devices st_synced = pending_devices st_init ++ l /\
     (NoDup (pending_devices st_init) -> NoDup (pending_devices st_synced)) /\
     forall n, n ∈ names -> n ∈ pending_devices st_synced).
Proof.
  apply (ProbeMore.sync_devices_appends env_dup st_init (Ok tt) st_synced). reflexivity.
Defined.

Lemma probe_pass_queue_witness :
  let st0 := mkProbeState ["eth0"%string; "eth1"%string] ∅ [mkIface VLoopback None] true in
  let st' := snd (process_pending_probes env_ring_fails st0) in
  fst (process_pending_probes env_ring_fails st0) = Err InternalError /\
  pending_devices st' = ["eth1"%string] /\
  ((Err (A := unit) InternalError = Ok tt -> pending_devices st' = []) /\
   (forall e, Err (A := unit) InternalError = Err e ->
      exists k, (k < length (pending_devices st0))%nat /\
                pending_devices st' = drop (S k) (pending_devices st0)) /\
   (exists l, interfaces st' = interfaces st0 ++ l) /\
   probed_hardware st0 ⊆ probed_hardware st').
Proof.
  intros st0 st'. split; [reflexivity|]. split; [reflexivity|].
  apply (ProbeMore.probe_pass_queue env_ring_fails st0 (Err InternalError) st'). reflexivity.
Defined.

Lemma pending_devices_nodup_witness :
  NoDup (pending_devices st_synced) /\ pending_devices st_synced = ["eth0"%string; "eth1"%string].
Proof.
  split; [|reflexivity].
  apply ProbeMore.pending_devices_nodup.
  eapply pr_step; [exact (pr_init true)|]. eapply (ps_sync env_dup). reflexivity.
Defined.

Lemma interfaces_loopback_first_witness :
  exists rest, interfaces st_probed = mkIface VLoopback None :: rest /\
    Forall (fun ic => exists n h, ic = mkIface (VNet n) (Some h)) rest.
Proof. apply ProbeMore.interfaces_loopback_first. exact st_probed_reachable. Defined.

End ProbeMoreWitness.
